(** * MediMate bot: the voice pipeline and the reply parser

    A shallow embedding of
    - [formatBotReply], [sendMessage], [startListening], [stopListening]
      and [toggleListening] of [MediMateBot/client/src/App.jsx], and
    - the [/chat] and [/transcribe] handlers of the bot server,
    with the properties of them that the specification states.

    JavaScript strings are sequences of UTF-16 code units; a code unit is
    an [N].  Regular expressions are embedded as syntax trees run by a
    backtracking matcher that follows the order of alternatives and the
    greediness of ECMAScript's. *)

From Stdlib Require Import String Ascii.
From stdpp Require Import gmap list fin_maps.

Local Open Scope N_scope.

(** ** Strings *)

Abbreviation jsstring := (list N).

(** An ASCII literal as a JavaScript string. *)
Definition js (s : string) : jsstring :=
  map N_of_ascii (list_ascii_of_string s).

(** The code unit of [•] (U+2022). *)
Definition bulletChar : N := 8226.

(** ECMAScript's WhiteSpace and LineTerminator code units: what [trim]
    removes and what [\s] matches. *)
Definition isWhiteSpace (c : N) : bool :=
  (c =? 9) || (c =? 10) || (c =? 11) || (c =? 12) || (c =? 13) || (c =? 32)
  || (c =? 160) || (c =? 5760) || ((8192 <=? c) && (c <=? 8202))
  || (c =? 8232) || (c =? 8233) || (c =? 8239) || (c =? 8287)
  || (c =? 12288) || (c =? 65279).

(** LineTerminator: what [.] does not match. *)
Definition isLineTerminator (c : N) : bool :=
  (c =? 10) || (c =? 13) || (c =? 8232) || (c =? 8233).

Fixpoint dropWhile (p : N -> bool) (s : jsstring) : jsstring :=
  match s with
  | c :: s' => if p c then dropWhile p s' else s
  | [] => []
  end.

Definition trimStart (s : jsstring) : jsstring := dropWhile isWhiteSpace s.
Definition trimEnd (s : jsstring) : jsstring :=
  rev (dropWhile isWhiteSpace (rev s)).

(** [String.prototype.trim]. *)
Definition trim (s : jsstring) : jsstring := trimEnd (trimStart s).

(** [s.split(sep)] for a separator of one code unit: never empty, its
    first element is what precedes the first separator. *)
Fixpoint split (sep : N) (s : jsstring) : list jsstring :=
  match s with
  | [] => [[]]
  | c :: s' =>
      if c =? sep then [] :: split sep s'
      else match split sep s' with
           | w :: ws => (c :: w) :: ws
           | [] => [[c]]
           end
  end.

(** [s.startsWith(p)]. *)
Fixpoint startsWith (p s : jsstring) : bool :=
  match p, s with
  | [], _ => true
  | a :: p', c :: s' => (a =? c) && startsWith p' s'
  | _ :: _, [] => false
  end.

(** Truthiness of a string: the empty string is falsy. *)
Definition truthy (s : jsstring) : bool :=
  match s with [] => false | _ :: _ => true end.

(** Truthiness of a value that is a string or [undefined]. *)
Definition truthyOpt (v : option jsstring) : bool :=
  match v with Some s => truthy s | None => false end.

(** [v || d] for a value that is a string or [undefined]. *)
Definition orElse (v : option jsstring) (d : jsstring) : jsstring :=
  match v with
  | Some s => if truthy s then s else d
  | None => d
  end.

(** ** Regular expressions *)

(** The fragment the program uses: [^], one code unit out of a class (a
    literal, [\s], [.], a bracket class), concatenation, alternation and
    the greedy star of a class; [Eps] is the empty pattern.  Groups capture
    nothing that is read. *)
Inductive regex : Type :=
| Eps
| Bol
| Cls (p : N -> bool)
| Cat (r1 r2 : regex)
| Alt (r1 r2 : regex)
| Many (p : N -> bool).

(** [c+] for a class [c]. *)
Definition Plus (p : N -> bool) : regex := Cat (Cls p) (Many p).

(** Greedy repetition of a class: the longest run first, then shorter
    ones, until the continuation accepts. *)
Fixpoint many (p : N -> bool) (k : nat -> jsstring -> option nat)
    (i : nat) (s : jsstring) : option nat :=
  match s with
  | c :: s' =>
      if p c then
        match many p k (S i) s' with
        | Some e => Some e
        | None => k i s
        end
      else k i s
  | [] => k i s
  end.

(** The backtracking matcher: [rmatch r k i s] matches [r] at index [i],
    where [s] is the input from [i] on, then runs the continuation [k];
    the result is the index at which the whole match ends. *)
Fixpoint rmatch (r : regex) (k : nat -> jsstring -> option nat)
    (i : nat) (s : jsstring) : option nat :=
  match r with
  | Eps => k i s
  | Bol => if Nat.eqb i 0 then k i s else None
  | Cls p =>
      match s with
      | c :: s' => if p c then k (S i) s' else None
      | [] => None
      end
  | Cat r1 r2 => rmatch r1 (rmatch r2 k) i s
  | Alt r1 r2 =>
      match rmatch r1 k i s with
      | Some e => Some e
      | None => rmatch r2 k i s
      end
  | Many p => many p k i s
  end.

Definition accept (i : nat) (_ : jsstring) : option nat := Some i.

(** The leftmost match from index [i] on: its start and its end. *)
Fixpoint search (r : regex) (i : nat) (s : jsstring) : option (nat * nat) :=
  match rmatch r accept i s with
  | Some e => Some (i, e)
  | None =>
      match s with
      | _ :: s' => search r (S i) s'
      | [] => None
      end
  end.

(** [r.exec(s)], for a regex without the [g] and [y] flags. *)
Definition exec (r : regex) (s : jsstring) : option (nat * nat) :=
  search r 0 s.

(** [r.test(s)]. *)
Definition test (r : regex) (s : jsstring) : bool :=
  match exec r s with Some _ => true | None => false end.

(** [s.replace(r, t)] for a regex without [g] and a replacement [t]
    without [$]: the leftmost match is replaced. *)
Definition replace (r : regex) (t : jsstring) (s : jsstring) : jsstring :=
  match exec r s with
  | Some (b, e) => take b s ++ t ++ drop e s
  | None => s
  end.

(** A literal code unit. *)
Definition chr (c : N) : N -> bool := fun x => x =? c.

Definition asciiUpper (c : N) : N :=
  if (97 <=? c) && (c <=? 122) then c - 32 else c.

(** A literal under the [i] flag, without [u].  Canonicalize maps a code
    unit to its upper case, except that a code unit from 128 on is never
    mapped below 128: an ASCII letter matches its two ASCII cases only. *)
Definition ci (c : N) : N -> bool :=
  fun x => (x <? 128) && (asciiUpper x =? asciiUpper c).

(** [\s] *)
Definition ws : N -> bool := isWhiteSpace.

(** [.] without the [s] flag. *)
Definition dot : N -> bool := fun x => negb (isLineTerminator x).

(** A literal word under the [i] flag. *)
Fixpoint word (w : jsstring) : regex :=
  match w with
  | [] => Eps
  | c :: w' => Cat (Cls (ci c)) (word w')
  end.

Definition lit (w : string) : regex := word (js w).

(** Concatenation of the parts of a pattern, left to right. *)
Fixpoint seq (rs : list regex) : regex :=
  match rs with
  | [] => Eps
  | r :: rs' => Cat r (seq rs')
  end.

(** ** The reply parser: [formatBotReply] *)

(** The property names of [matchers], in the order they are written,
    which is the order [for (let key in matchers)] visits them. *)
Inductive key : Set :=
| Severity
| ImmediateNeed
| SeeADoctorIf
| NextSteps
| PossibleConditions
| Disclaimer.

Definition keyName (k : key) : string :=
  match k with
  | Severity => "Severity"
  | ImmediateNeed => "Immediate Need for Attention"
  | SeeADoctorIf => "See a Doctor If"
  | NextSteps => "Next Steps"
  | PossibleConditions => "Possible Conditions"
  | Disclaimer => "Disclaimer"
  end.

Definition keys : list key :=
  [Severity; ImmediateNeed; SeeADoctorIf; NextSteps; PossibleConditions;
   Disclaimer].

#[global] Instance key_eq_dec : EqDecision key.
Proof. solve_decision. Defined.

Definition key_index (k : key) : nat :=
  match k with
  | Severity => 0
  | ImmediateNeed => 1
  | SeeADoctorIf => 2
  | NextSteps => 3
  | PossibleConditions => 4
  | Disclaimer => 5
  end%nat.

#[global] Instance key_countable : Countable key.
Proof.
  refine (inj_countable' key_index (fun n => nth n keys Severity) _).
  intros []; reflexivity.
Defined.

Definition colon : regex := Cls (chr 58).

Definition matchers (k : key) : regex :=
  match k with
  | Severity =>
      (* /severity\s*:/i *)
      seq [lit "severity"; Many ws; colon]
  | ImmediateNeed =>
      (* /immediate\s+need\s+for\s+attention\s*:/i *)
      seq [lit "immediate"; Plus ws; lit "need"; Plus ws; lit "for"; Plus ws;
           lit "attention"; Many ws; colon]
  | SeeADoctorIf =>
      (* /(see|seek).*(doctor|medical)/i *)
      seq [Alt (lit "see") (lit "seek"); Many dot;
           Alt (lit "doctor") (lit "medical")]
  | NextSteps =>
      (* /next\s+steps\s*:/i *)
      seq [lit "next"; Plus ws; lit "steps"; Many ws; colon]
  | PossibleConditions =>
      (* /possible\s+conditions\s*:/i *)
      seq [lit "possible"; Plus ws; lit "conditions"; Many ws; colon]
  | Disclaimer =>
      (* /disclaimer\s*:/i *)
      seq [lit "disclaimer"; Many ws; colon]
  end.

(** [["See a Doctor If", "Next Steps", "Possible Conditions"].includes(key)] *)
Definition isListKey (k : key) : bool :=
  match k with
  | SeeADoctorIf | NextSteps | PossibleConditions => true
  | Severity | ImmediateNeed | Disclaimer => false
  end.

(** [-•*0-9] *)
Definition markerClass (c : N) : bool :=
  (c =? 45) || (c =? bulletChar) || (c =? 42) || ((48 <=? c) && (c <=? 57)).

(** [-•*0-9.] *)
Definition markerDotClass (c : N) : bool :=
  markerClass c || (c =? 46).

(** /^-/ *)
Definition dashRe : regex := seq [Bol; Cls (chr 45)].

(** /^[-•*0-9]+\./ *)
Definition numberedRe : regex := seq [Bol; Plus markerClass; Cls (chr 46)].

(** /^[-•*0-9.]+\s*/ *)
Definition markerRe : regex := seq [Bol; Plus markerDotClass; Many ws].

(** What a property of [sections] holds: a string or an array of strings. *)
Inductive value : Type :=
| Str (s : jsstring)
| Arr (items : list jsstring).

(** The two variables the scan of the lines updates. *)
Record scan : Type := Scan {
  sections : gmap key value;
  currentKey : option key
}.

Definition scan0 : scan := Scan ∅ None.

(** [text.split("\n").map((l) => l.trim()).filter(Boolean)] *)
Definition lines (text : jsstring) : list jsstring :=
  List.filter truthy (map trim (split 10 text)).

(** The first key of [matchers] whose pattern the line matches. *)
Definition headerOf (line : jsstring) : option key :=
  List.find (fun k => test (matchers k) line) keys.

(** What a header line stores under its key. *)
Definition headerValue (k : key) (line : jsstring) : value :=
  if isListKey k then Arr []
  else Str (trim (replace (matchers k) [] line)).

(** [currentKey && Array.isArray(sections[currentKey])] *)
Definition openArray (st : scan) : bool :=
  match currentKey st with
  | Some k =>
      match sections st !! k with
      | Some (Arr _) => true
      | _ => false
      end
  | None => false
  end.

(** [sections[currentKey].push(item)], run where [openArray] holds. *)
Definition push (st : scan) (item : jsstring) : scan :=
  match currentKey st with
  | Some k =>
      match sections st !! k with
      | Some (Arr items) =>
          Scan (<[k := Arr (items ++ [item])]> (sections st)) (currentKey st)
      | _ => st
      end
  | None => st
  end.

(** The body of [lines.forEach]. *)
Definition scanLine (st : scan) (line : jsstring) : scan :=
  match headerOf line with
  | Some k => Scan (<[k := headerValue k line]> (sections st)) (Some k)
  | None =>
      if startsWith (js "-") line && openArray st then
        push st (trim (replace dashRe [] line))
      else if test numberedRe line && openArray st then
        push st (trim (replace markerRe [] line))
      else st
  end.

Definition scanLines (st : scan) (ls : list jsstring) : scan :=
  fold_left scanLine ls st.

(** The [sections] object [formatBotReply] builds from a reply. *)
Definition parseSections (text : jsstring) : gmap key value :=
  sections (scanLines scan0 (lines text)).

(** What the returned element shows of [sections].  A scalar key only
    ever holds a string and a list key an array ([wellTyped] below), so
    the other cases show nothing here. *)
Inductive block : Type :=
| Para (k : key) (text : jsstring)
| Bullets (k : key) (items : list jsstring).

(** [sections[k] && <p>...</p>] for the scalar sections. *)
Definition para (m : gmap key value) (k : key) : list block :=
  match m !! k with
  | Some (Str s) => if truthy s then [Para k s] else []
  | _ => []
  end.

(** [sections[k]?.length > 0 && <ul>...</ul>] for the list sections. *)
Definition bullets (m : gmap key value) (k : key) : list block :=
  match m !! k with
  | Some (Arr (i :: items)) => [Bullets k (i :: items)]
  | _ => []
  end.

Definition formatBotReply (text : jsstring) : list block :=
  let m := parseSections text in
  para m Severity ++ para m ImmediateNeed ++ bullets m SeeADoctorIf
  ++ bullets m NextSteps ++ bullets m PossibleConditions ++ para m Disclaimer.

(** ** The chat client: [App] *)

Inductive role : Set := User | Bot.

Record message : Type := Message { role_ : role; text_ : jsstring }.

(** The bytes of a [Blob]; its [size] is their number. *)
Abbreviation blob := (list Byte.byte).

(** What [fetch] is called with.  The body of a transcription request
    carries the blob as the base64 text [FileReader] made of it. *)
Inductive request : Type :=
| PostChat (symptoms : jsstring)
| PostTranscribe (audio : blob) (mimeType : jsstring).

(** A [MediaRecorder]: the mime type the browser chose for it, and whether
    its state is ["recording"].  Recorder [i] records stream [i]. *)
Record recorder : Type := Recorder { recMime : jsstring; recording : bool }.

(** The component's state and refs, and what it holds of the browser. *)
Record app : Type := App {
  input : jsstring;
  messages : list message;
  isListening : bool;
  isTranscribing : bool;
  voiceError : option jsstring;
  mediaRecorderRef : option nat;
  audioChunksRef : list blob;
  (* the browser *)
  mounted : bool;
  pendingMic : nat;          (* [getUserMedia] calls not yet settled *)
  streams : list nat;        (* stream [i]: how often its tracks were stopped *)
  recorders : list recorder;
  pendingTranscribe : nat;   (* [/transcribe] requests not yet answered *)
  pendingChat : nat;         (* [/chat] requests not yet answered *)
  outbox : list request      (* every request issued, oldest first *)
}.

Definition app0 : app :=
  App [] [] false false None None [] true 0 [] [] 0 0 [].

Definition setInput (v : jsstring) (w : app) : app :=
  App v (messages w) (isListening w) (isTranscribing w) (voiceError w)
    (mediaRecorderRef w) (audioChunksRef w) (mounted w) (pendingMic w)
    (streams w) (recorders w) (pendingTranscribe w) (pendingChat w) (outbox w).

Definition setMessages (f : list message -> list message) (w : app) : app :=
  App (input w) (f (messages w)) (isListening w) (isTranscribing w)
    (voiceError w) (mediaRecorderRef w) (audioChunksRef w) (mounted w)
    (pendingMic w) (streams w) (recorders w) (pendingTranscribe w)
    (pendingChat w) (outbox w).

Definition setIsListening (v : bool) (w : app) : app :=
  App (input w) (messages w) v (isTranscribing w) (voiceError w)
    (mediaRecorderRef w) (audioChunksRef w) (mounted w) (pendingMic w)
    (streams w) (recorders w) (pendingTranscribe w) (pendingChat w) (outbox w).

Definition setIsTranscribing (v : bool) (w : app) : app :=
  App (input w) (messages w) (isListening w) v (voiceError w)
    (mediaRecorderRef w) (audioChunksRef w) (mounted w) (pendingMic w)
    (streams w) (recorders w) (pendingTranscribe w) (pendingChat w) (outbox w).

Definition setVoiceError (v : option jsstring) (w : app) : app :=
  App (input w) (messages w) (isListening w) (isTranscribing w) v
    (mediaRecorderRef w) (audioChunksRef w) (mounted w) (pendingMic w)
    (streams w) (recorders w) (pendingTranscribe w) (pendingChat w) (outbox w).

Definition setMediaRecorderRef (v : option nat) (w : app) : app :=
  App (input w) (messages w) (isListening w) (isTranscribing w) (voiceError w)
    v (audioChunksRef w) (mounted w) (pendingMic w) (streams w) (recorders w)
    (pendingTranscribe w) (pendingChat w) (outbox w).

Definition setAudioChunks (v : list blob) (w : app) : app :=
  App (input w) (messages w) (isListening w) (isTranscribing w) (voiceError w)
    (mediaRecorderRef w) v (mounted w) (pendingMic w) (streams w)
    (recorders w) (pendingTranscribe w) (pendingChat w) (outbox w).

Definition setMounted (v : bool) (w : app) : app :=
  App (input w) (messages w) (isListening w) (isTranscribing w) (voiceError w)
    (mediaRecorderRef w) (audioChunksRef w) v (pendingMic w) (streams w)
    (recorders w) (pendingTranscribe w) (pendingChat w) (outbox w).

Definition setPendingMic (v : nat) (w : app) : app :=
  App (input w) (messages w) (isListening w) (isTranscribing w) (voiceError w)
    (mediaRecorderRef w) (audioChunksRef w) (mounted w) v (streams w)
    (recorders w) (pendingTranscribe w) (pendingChat w) (outbox w).

Definition setStreams (v : list nat) (w : app) : app :=
  App (input w) (messages w) (isListening w) (isTranscribing w) (voiceError w)
    (mediaRecorderRef w) (audioChunksRef w) (mounted w) (pendingMic w) v
    (recorders w) (pendingTranscribe w) (pendingChat w) (outbox w).

Definition setRecorders (v : list recorder) (w : app) : app :=
  App (input w) (messages w) (isListening w) (isTranscribing w) (voiceError w)
    (mediaRecorderRef w) (audioChunksRef w) (mounted w) (pendingMic w)
    (streams w) v (pendingTranscribe w) (pendingChat w) (outbox w).

Definition setPendingTranscribe (v : nat) (w : app) : app :=
  App (input w) (messages w) (isListening w) (isTranscribing w) (voiceError w)
    (mediaRecorderRef w) (audioChunksRef w) (mounted w) (pendingMic w)
    (streams w) (recorders w) v (pendingChat w) (outbox w).

Definition setPendingChat (v : nat) (w : app) : app :=
  App (input w) (messages w) (isListening w) (isTranscribing w) (voiceError w)
    (mediaRecorderRef w) (audioChunksRef w) (mounted w) (pendingMic w)
    (streams w) (recorders w) (pendingTranscribe w) v (outbox w).

(** [fetch(...)]: the request leaves. *)
Definition fetch (q : request) (w : app) : app :=
  let w' :=
    App (input w) (messages w) (isListening w) (isTranscribing w)
      (voiceError w) (mediaRecorderRef w) (audioChunksRef w) (mounted w)
      (pendingMic w) (streams w) (recorders w) (pendingTranscribe w)
      (pendingChat w) (outbox w ++ [q]) in
  match q with
  | PostChat _ => setPendingChat (S (pendingChat w)) w'
  | PostTranscribe _ _ => setPendingTranscribe (S (pendingTranscribe w)) w'
  end.

(** *** [sendMessage] *)

(** [typeof textOverride === "string" ? textOverride : input]; an
    argument that is not a string (a click event, nothing) is [None]. *)
Definition dispatched (textOverride : option jsstring) (w : app) : jsstring :=
  match textOverride with
  | Some t => t
  | None => input w
  end.

(** [sendMessage], up to its [await]. *)
Definition sendMessage (textOverride : option jsstring) (w : app) : app :=
  let text := dispatched textOverride w in
  if negb (truthy (trim text)) then w
  else
    fetch (PostChat text)
      (setMessages (fun m => m ++ [Message User text]) (setInput [] w)).

(** What [fetch] and [res.json()] of a [/chat] request come to. *)
Inductive chatResult : Type :=
| ChatJson (reply : option jsstring)
| ChatThrows.

(** [sendMessage], from its [await] on. *)
Definition chatSettles (r : chatResult) (w : app) : app :=
  match r with
  | ChatJson reply =>
      setMessages
        (fun m => m ++ [Message Bot (orElse reply (js "No reply from server."))])
        w
  | ChatThrows =>
      setMessages (fun m => m ++ [Message Bot (js "Error connecting to server.")])
        w
  end.

(** *** [startListening] *)

(** [startListening], up to [await getUserMedia]. *)
Definition startListening (w : app) : app :=
  if isListening w || isTranscribing w then w
  else
    setPendingMic (S (pendingMic w)) (setAudioChunks [] (setVoiceError None w)).

(** What [getUserMedia] settles with: a stream, on which the recorder the
    handler makes chooses [mime], or an error with a [name]. *)
Inductive micResult : Type :=
| Granted (mime : jsstring)
| Rejected (name : jsstring).

Definition jsEq (a b : jsstring) : bool := bool_decide (a = b).

(** [startListening], from [await getUserMedia] on. *)
Definition micSettles (r : micResult) (w : app) : app :=
  match r with
  | Granted mime =>
      let id := length (streams w) in
      let w1 := setStreams (streams w ++ [0%nat]) w in
      (* new MediaRecorder(stream), and mediaRecorder.start() below *)
      let w2 := setMediaRecorderRef (Some id) w1 in
      let w3 := setRecorders (recorders w ++ [Recorder mime true]) w2 in
      setIsListening true w3
  | Rejected name =>
      if jsEq name (js "NotAllowedError")
         || jsEq name (js "PermissionDeniedError")
      then
        setVoiceError
          (Some (js "Microphone access denied. Please allow mic in your browser settings."))
          w
      else
        setVoiceError
          (Some (js "Could not access microphone. Please check your device."))
          w
  end.

(** [stream.getTracks().forEach((t) => t.stop())] for stream [id]. *)
Definition stopTracks (id : nat) (w : app) : app :=
  match streams w !! id with
  | Some n => setStreams (<[id := S n]> (streams w)) w
  | None => w
  end.

(** [new Blob(chunks)]. *)
Definition newBlob (chunks : list blob) : blob := concat chunks.

Definition noAudioCaptured : jsstring :=
  js "No audio captured. Please try again.".

(** [mediaRecorder.onstop] of recorder [id], whose stream is stream [id].
    The request leaves from [reader.onloadend], once the blob is read. *)
Definition onstop (id : nat) (mime : jsstring) (w : app) : app :=
  let w1 := stopTracks id w in
  let actualMimeType := orElse (Some mime) (js "audio/webm") in
  let blob := newBlob (audioChunksRef w1) in
  let w2 := setAudioChunks [] w1 in
  if (length blob <? 500)%nat then setVoiceError (Some noAudioCaptured) w2
  else fetch (PostTranscribe blob actualMimeType) (setIsTranscribing true w2).

(** [mediaRecorder.ondataavailable] *)
Definition ondataavailable (data : blob) (w : app) : app :=
  if (0 <? length data)%nat then
    setAudioChunks (audioChunksRef w ++ [data]) w
  else w.

(** [recorder.stop()] on recorder [id]: a recording recorder turns
    inactive and delivers what it gathered, then [stop]; an inactive one
    is left alone. *)
Definition recorderStop (id : nat) (data : blob) (w : app) : app :=
  match recorders w !! id with
  | Some (Recorder mime true) =>
      onstop id mime
        (ondataavailable data
           (setRecorders (<[id := Recorder mime false]> (recorders w)) w))
  | _ => w
  end.

(** [stopListening]; [data] is what the recorder has gathered. *)
Definition stopListening (data : blob) (w : app) : app :=
  match mediaRecorderRef w with
  | Some id =>
      if negb (isListening w) then w
      else recorderStop id data (setIsListening false w)
  | None => w
  end.

Definition toggleListening (data : blob) (w : app) : app :=
  if isListening w then stopListening data w else startListening w.

(** What [fetch] and [res.json()] of a [/transcribe] request come to. *)
Inductive transcribeResult : Type :=
| TranscribeJson (transcript error : option jsstring)
| TranscribeThrows.

(** [reader.onloadend], from [await fetch] on. *)
Definition transcribeSettles (r : transcribeResult) (w : app) : app :=
  match r with
  | TranscribeJson transcript error =>
      let w1 := setIsTranscribing false w in
      match transcript with
      | Some t =>
          if truthy t then sendMessage (Some t) w1
          else
            setVoiceError
              (Some (orElse error
                       (js "Couldn't understand audio. Please try again or type.")))
              w1
      | None =>
          setVoiceError
            (Some (orElse error
                     (js "Couldn't understand audio. Please try again or type.")))
            w1
      end
  | TranscribeThrows =>
      setVoiceError
        (Some (js "Transcription failed. Please type your symptoms."))
        (setIsTranscribing false w)
  end.

(** What can happen to the component: a call of one of its handlers from
    the page, a pending promise settling, or its unmounting. *)
Inductive event : Type :=
| Typing (v : jsstring)
| Send (textOverride : option jsstring)
| Start
| Stop (data : blob)
| Toggle (data : blob)
| MicSettles (r : micResult)
| TranscribeSettles (r : transcribeResult)
| ChatSettles (r : chatResult)
| Unmount.

(** The code an event runs.  The page calls handlers of a mounted
    component only, and a promise settles only once it was made.  [App]
    passes no cleanup function to [useEffect]: unmounting runs none of
    its code. *)
Definition react (w : app) (e : event) : app :=
  match e with
  | Typing v => if mounted w then setInput v w else w
  | Send t => if mounted w then sendMessage t w else w
  | Start => if mounted w then startListening w else w
  | Stop data => if mounted w then stopListening data w else w
  | Toggle data => if mounted w then toggleListening data w else w
  | MicSettles r =>
      match pendingMic w with
      | S n => micSettles r (setPendingMic n w)
      | O => w
      end
  | TranscribeSettles r =>
      match pendingTranscribe w with
      | S n => transcribeSettles r (setPendingTranscribe n w)
      | O => w
      end
  | ChatSettles r =>
      match pendingChat w with
      | S n => chatSettles r (setPendingChat n w)
      | O => w
      end
  | Unmount => setMounted false w
  end.

(** What is left of [w'], reached from [w], when React drops the state
    updates: the state of [w], and the refs, the browser and the requests
    of [w']. *)
Definition dropUpdates (w w' : app) : app :=
  App (input w) (messages w) (isListening w) (isTranscribing w) (voiceError w)
    (mediaRecorderRef w') (audioChunksRef w') (mounted w') (pendingMic w')
    (streams w') (recorders w') (pendingTranscribe w') (pendingChat w')
    (outbox w').

(** One event.  The state setters of a component that is unmounted do
    nothing: the code of a promise that settles after the unmounting
    still runs, its requests leave and its stream is acquired, but the
    state stays as it was. *)
Definition step (w : app) (e : event) : app :=
  if mounted w then react w e else dropUpdates w (react w e).

Definition run (w : app) (es : list event) : app := fold_left step es w.

(** Stream [id] is held: acquired, its tracks never stopped. *)
Definition held (id : nat) (w : app) : Prop := streams w !! id = Some 0%nat.

(** ** The bot server *)

(** What [model.generateContent] comes to: the text of the response, or
    an exception with its [message], if it has one. *)
Inductive outcome : Type :=
| Returns (text : jsstring)
| Throws (message : option jsstring).

Inductive resBody : Type :=
| ErrorBody (error : jsstring)
| ReplyBody (reply : jsstring)
| TranscriptBody (transcript : jsstring).

Record response : Type := Response { status : nat; body : resBody }.

(** [res.json(b)]: the status is 200 unless [res.status] set it. *)
Definition json (b : resBody) : response := Response 200 b.

(** [(mimeType || "audio/webm").split(";")[0].trim()] *)
Definition safeMimeType (mimeType : option jsstring) : jsstring :=
  trim (hd [] (split 59 (orElse mimeType (js "audio/webm")))).

(** The body of a [/transcribe] request. *)
Record transcribeBody : Type := TranscribeBody {
  audio : option jsstring;
  mimeType : option jsstring
}.

(** What the handler makes of the outcome of [generateContent]. *)
Definition transcribeReply (o : outcome) : response :=
  match o with
  | Returns text =>
      let transcript := trim text in
      if negb (truthy transcript) then
        Response 422
          (ErrorBody
             (js "Gemini returned an empty transcript. Audio may be too quiet or silent."))
      else json (TranscriptBody transcript)
  | Throws message =>
      Response 500 (ErrorBody (orElse message (js "Transcription failed")))
  end.

(** [app.post("/transcribe", ...)]; [gemini mimeType data] is what
    [generateContent] comes to for that [inlineData]. *)
Definition transcribe (gemini : jsstring -> jsstring -> outcome)
    (b : transcribeBody) : response :=
  match audio b with
  | Some a =>
      if negb (truthy a) then Response 400 (ErrorBody (js "Audio data required"))
      else transcribeReply (gemini (safeMimeType (mimeType b)) a)
  | None => Response 400 (ErrorBody (js "Audio data required"))
  end.

(** [app.post("/chat", ...)]; [gemini symptoms] is what [generateContent]
    comes to for the prompt made of [symptoms]. *)
Definition chat (gemini : jsstring -> outcome) (symptoms : option jsstring)
    : response :=
  match symptoms with
  | Some s =>
      if negb (truthy s) then
        Response 400 (ErrorBody (js "Symptoms are required"))
      else
        match gemini s with
        | Returns reply => json (ReplyBody reply)
        | Throws _ =>
            Response 500 (ErrorBody (js "Failed to get response from Gemini"))
        end
  | None => Response 400 (ErrorBody (js "Symptoms are required"))
  end.

(** * The vocabulary of the properties *)

(** ** The microphone *)

(** Two calls of [startListening] before [getUserMedia] has settled for
    the first, both granted, and then a call of [stopListening]. *)
Definition doubleStart (mime : jsstring) (data : blob) : list event :=
  [Start; Start; MicSettles (Granted mime); MicSettles (Granted mime);
   Stop data].

(** Stream 0 is held while the ref points at a later recorder. *)
Definition orphaned (w : app) : Prop :=
  held 0 w /\ exists id, mediaRecorderRef w = Some (S id).

(** The tracks of a recorder's stream were stopped never while it
    records, and once after it was stopped. *)
Definition accounted (r : recorder) (n : nat) : Prop :=
  n = if recording r then 0%nat else 1%nat.

(** ** Providers to run the handlers on *)

(** A provider that refuses a mime type with a parameter, and else
    returns its input. *)
Definition strictProvider (mime data : jsstring) : outcome :=
  if bool_decide (59 ∈ mime) then Throws (Some (js "Unsupported MIME type"))
  else Returns data.

(** A provider that hears nothing. *)
Definition silentProvider (mime data : jsstring) : outcome := Returns (js "  ").

(** A provider that fails with a message of its own. *)
Definition failingProvider (mime data : jsstring) : outcome :=
  Throws (Some (js "429 quota exceeded")).

(** A provider that fails without a message. *)
Definition brokenProvider (mime data : jsstring) : outcome := Throws None.

(** ** Regular expressions *)

(** [matches r i w]: the pattern [r] matches the word [w] when [w] starts
    at index [i] of the input. *)
Inductive matches : regex -> nat -> jsstring -> Prop :=
| M_eps i : matches Eps i []
| M_bol : matches Bol 0 []
| M_cls p c i : p c = true -> matches (Cls p) i [c]
| M_cat r1 r2 i w1 w2 :
    matches r1 i w1 -> matches r2 (i + length w1) w2 ->
    matches (Cat r1 r2) i (w1 ++ w2)
| M_alt_l r1 r2 i w : matches r1 i w -> matches (Alt r1 r2) i w
| M_alt_r r1 r2 i w : matches r2 i w -> matches (Alt r1 r2) i w
| M_many p i w : Forall (fun c => p c = true) w -> matches (Many p) i w.


(** What follows a greedy run cannot extend it. *)
Definition stopsRun (p : N -> bool) (s : jsstring) : Prop :=
  match s with
  | [] => True
  | c :: _ => p c = false
  end.

(** ** The reply parser *)

(** A line that starts with [-]. *)
Definition dashed (line : jsstring) : Prop := exists rest, line = 45 :: rest.

(** A line that starts with a run of [-], [•], [*] and digits, followed
    by [.]. *)
Definition numbered (line : jsstring) : Prop :=
  exists run rest,
    run <> [] /\ Forall (fun c => markerClass c = true) run
    /\ line = run ++ 46 :: rest.

(** [Array.isArray(v)] *)
Definition isArr (v : value) : bool :=
  match v with Arr _ => true | Str _ => false end.

(** What every scan keeps: a list section holds an array and a scalar
    section a string, and the current section has been stored. *)
Definition wellTyped (st : scan) : Prop :=
  (forall k v, sections st !! k = Some v -> isArr v = isListKey k)
  /\ (forall k, currentKey st = Some k -> is_Some (sections st !! k)).

(** Two scans with the same current key and the same section [k]. *)
Definition agree (k : key) (st1 st2 : scan) : Prop :=
  currentKey st1 = currentKey st2 /\ sections st1 !! k = sections st2 !! k.


(** ** The wire between the client and the server *)

(** What [await res.json()] gives the client for a response of
    [/transcribe]: [data.transcript] and [data.error]. *)
Definition transcribeData (r : response) : transcribeResult :=
  match body r with
  | TranscriptBody t => TranscribeJson (Some t) None
  | ErrorBody e => TranscribeJson None (Some e)
  | ReplyBody _ => TranscribeJson None None
  end.

(** What [await res.json()] gives the client for a response of [/chat]:
    [data.reply]. *)
Definition chatData (r : response) : chatResult :=
  match body r with
  | ReplyBody t => ChatJson (Some t)
  | ErrorBody _ | TranscriptBody _ => ChatJson None
  end.

(** ** Reading the log and the requests *)

(** The texts of the user's messages, oldest first. *)
Definition userTexts (ms : list message) : list jsstring :=
  omap (fun m => match role_ m with User => Some (text_ m) | Bot => None end) ms.

(** The texts of the bot's messages, oldest first. *)
Definition botTexts (ms : list message) : list jsstring :=
  omap (fun m => match role_ m with Bot => Some (text_ m) | User => None end) ms.

(** The symptoms of the [/chat] requests, oldest first. *)
Definition chatRequests (qs : list request) : list jsstring :=
  omap (fun q => match q with PostChat s => Some s | PostTranscribe _ _ => None end)
    qs.

(** A message worth showing: a user's text that is not blank, a bot's
    text that is not empty. *)
Definition shown (m : message) : Prop :=
  match role_ m with
  | User => trim (text_ m) <> []
  | Bot => text_ m <> []
  end.

(** A request the server has something to work on. *)
Definition sound (q : request) : Prop :=
  match q with
  | PostChat s => trim s <> []
  | PostTranscribe b mime => (500 <= length b)%nat /\ mime <> []
  end.

(** The log, the requests and what is outstanding fit together: the
    messages are worth showing and the requests sound; the [/chat]
    requests are the user's messages, one for one and in order; each of
    them has its bot message or is still outstanding; and the component
    is transcribing only while a [/transcribe] request is outstanding. *)
Definition tidy (ms : list message) (qs : list request) (chats : nat)
    (transcribing : bool) (transcribes : nat) : Prop :=
  Forall shown ms
  /\ Forall sound qs
  /\ chatRequests qs = userTexts ms
  /\ (length (botTexts ms) + chats = length (userTexts ms))%nat
  /\ (transcribing = true -> (0 < transcribes)%nat).

Definition settled (w : app) : Prop :=
  tidy (messages w) (outbox w) (pendingChat w) (isTranscribing w)
    (pendingTranscribe w).

(** What holds of the log and the requests whether the component is
    mounted or not, and what holds besides while it is mounted. *)
Definition kept (w : app) : Prop :=
  Forall shown (messages w)
  /\ Forall sound (outbox w)
  /\ (mounted w = true -> settled w).

(** A stream whose tracks were never stopped. *)
Definition isHeld (n : nat) : bool := Nat.eqb 0 n.

(** How many streams are held. *)
Definition heldStreams (w : app) : nat :=
  length (List.filter isHeld (streams w)).

(** No call of [startListening] goes through while [getUserMedia] is
    still to settle for an earlier one: along the events, at most one
    call of [getUserMedia] is outstanding. *)
Fixpoint unhurried (w : app) (es : list event) : bool :=
  match es with
  | [] => true
  | e :: es' => (pendingMic (step w e) <=? 1)%nat && unhurried (step w e) es'
  end.

(** What of the component the microphone depends on. *)
Definition micView (w : app)
    : list nat * list recorder * option nat * bool * nat :=
  (streams w, recorders w, mediaRecorderRef w, isListening w, pendingMic w).

(** The microphone is in order: every recorder's stream is accounted
    for, at most one [getUserMedia] is outstanding, and either the
    component is listening, nothing is outstanding, the ref holds a
    recorder that records and exactly one stream is held, or it is not
    listening and no stream is held. *)
Definition calm (v : list nat * list recorder * option nat * bool * nat) : Prop :=
  let '(ss, rs, ref, listening, pending) := v in
  Forall2 accounted rs ss
  /\ (pending <= 1)%nat
  /\ if listening then
       pending = 0%nat
       /\ length (List.filter isHeld ss) = 1%nat
       /\ exists id mime, ref = Some id /\ rs !! id = Some (Recorder mime true)
     else length (List.filter isHeld ss) = 0%nat.

Definition poised (w : app) : Prop := calm (micView w).

(** ** Header lines as the prompt asks for them *)



(** ** Reading the parser's result *)

(** What [push] receives for a bullet line: the line without its first
    [-], or else without its leading marker characters and dots. *)
Definition itemOf (line : jsstring) : jsstring :=
  match line with
  | 45 :: rest => trim rest
  | _ => trim (dropWhile markerDotClass line)
  end.

(** A line the bullet tests take. *)
Definition bulletLine (line : jsstring) : Prop :=
  headerOf line = None /\ (dashed line \/ numbered line).

Definition blockKey (b : block) : key :=
  match b with Para k _ | Bullets k _ => k end.

(** A block with something in it, holding what [m] stores under its key. *)
Definition blockOf (m : gmap key value) (b : block) : Prop :=
  match b with
  | Para k s => s <> [] /\ m !! k = Some (Str s)
  | Bullets k items => items <> [] /\ m !! k = Some (Arr items)
  end.

(** A value whose strings are trimmed. *)
Definition trimmedValue (v : value) : Prop :=
  match v with
  | Str s => trim s = s
  | Arr items => Forall (fun i => trim i = i) items
  end.

Arguments isHeld : simpl never.

(** * Properties *)

(** Case analysis on every condition the goal branches on. *)
Ltac case_ifs :=
  repeat match goal with
         | |- context [if ?b then _ else _] => destruct b
         end.

(** ** Strings *)

Section StringFacts.

Lemma split_head_before (sep : N) (c p : jsstring) :
  sep ∉ c -> hd [] (split sep (c ++ sep :: p)) = c.
Proof.
  induction c as [|x c IH]; intros Hc; simpl.
  - now rewrite N.eqb_refl.
  - apply not_elem_of_cons in Hc as [Hx Hc].
    destruct (N.eqb_spec x sep) as [->|_]; [done|].
    specialize (IH Hc).
    destruct (split sep (c ++ sep :: p)) as [|w ws]; simpl in *; congruence.
Qed.

Lemma split_head_whole (sep : N) (c : jsstring) :
  sep ∉ c -> split sep c = [c].
Proof.
  induction c as [|x c IH]; intros Hc; simpl; [done|].
  apply not_elem_of_cons in Hc as [Hx Hc].
  destruct (N.eqb_spec x sep) as [->|_]; [done|].
  now rewrite (IH Hc).
Qed.

End StringFacts.

(** ** The client *)

Section ClientFacts.

(** C5.  Dispatching a text that trims to the empty string, whether it
    was passed to [sendMessage] or read from the input box, changes
    nothing: the message log is the same, no request has left, and the
    rest of the state is the same too. *)
Theorem sendMessage_blank (textOverride : option jsstring) (w : app) :
  trim (dispatched textOverride w) = [] ->
  messages (sendMessage textOverride w) = messages w
  /\ outbox (sendMessage textOverride w) = outbox w
  /\ sendMessage textOverride w = w.
Proof.
  intros Hblank. unfold sendMessage. rewrite Hblank. simpl. auto.
Qed.

Lemma sendMessage_blank_witness :
  messages (sendMessage (Some (js "  ")) app0) = messages app0
  /\ outbox (sendMessage (Some (js "  ")) app0) = outbox app0
  /\ sendMessage (Some (js "  ")) app0 = app0.
Proof. apply (sendMessage_blank (Some (js "  ")) app0). reflexivity. Defined.

(** A text that does not trim to the empty string is logged and sent. *)
Lemma sendMessage_text (textOverride : option jsstring) (w : app) :
  trim (dispatched textOverride w) <> [] ->
  messages (sendMessage textOverride w)
  = messages w ++ [Message User (dispatched textOverride w)]
  /\ outbox (sendMessage textOverride w)
     = outbox w ++ [PostChat (dispatched textOverride w)].
Proof.
  intros Htext. unfold sendMessage.
  destruct (trim (dispatched textOverride w)); [done|]. simpl. auto.
Qed.

(** C4.  When the finalized blob has fewer than 500 bytes, the stop
    handler issues no request, leaves [isTranscribing] as it was, and sets
    the error to the no-audio message. *)
Theorem onstop_small_blob (id : nat) (mime : jsstring) (w : app) :
  (length (newBlob (audioChunksRef w)) < 500)%nat ->
  outbox (onstop id mime w) = outbox w
  /\ pendingTranscribe (onstop id mime w) = pendingTranscribe w
  /\ isTranscribing (onstop id mime w) = isTranscribing w
  /\ voiceError (onstop id mime w) = Some noAudioCaptured.
Proof.
  intros Hsmall. unfold onstop.
  assert (Hchunks : audioChunksRef (stopTracks id w) = audioChunksRef w).
  { unfold stopTracks. now destruct (streams w !! id). }
  rewrite Hchunks.
  apply Nat.ltb_lt in Hsmall. rewrite Hsmall.
  unfold stopTracks. destruct (streams w !! id); simpl; auto.
Qed.

Lemma onstop_small_blob_witness :
  outbox (onstop 0 (js "audio/webm") (setAudioChunks [repeat Byte.x00 499] app0))
  = []
  /\ pendingTranscribe
       (onstop 0 (js "audio/webm") (setAudioChunks [repeat Byte.x00 499] app0))
     = 0%nat
  /\ isTranscribing
       (onstop 0 (js "audio/webm") (setAudioChunks [repeat Byte.x00 499] app0))
     = false
  /\ voiceError
       (onstop 0 (js "audio/webm") (setAudioChunks [repeat Byte.x00 499] app0))
     = Some noAudioCaptured.
Proof.
  apply (onstop_small_blob 0 (js "audio/webm")
           (setAudioChunks [repeat Byte.x00 499] app0)).
  vm_compute. lia.
Defined.

(** From 500 bytes on, the request leaves with the recorder's own mime
    type, codec parameter and all. *)
Lemma onstop_sends_actual_mime (id : nat) (mime : jsstring) (w : app) :
  (500 <= length (newBlob (audioChunksRef w)))%nat ->
  mime <> [] ->
  outbox (onstop id mime w)
  = outbox w ++ [PostTranscribe (newBlob (audioChunksRef w)) mime]
  /\ isTranscribing (onstop id mime w) = true.
Proof.
  intros Hbig Hmime. unfold onstop.
  assert (Hchunks : audioChunksRef (stopTracks id w) = audioChunksRef w).
  { unfold stopTracks. now destruct (streams w !! id). }
  rewrite Hchunks.
  apply Nat.ltb_ge in Hbig. rewrite Hbig.
  destruct mime as [|c mime]; [done|].
  unfold stopTracks. destruct (streams w !! id); simpl; auto.
Qed.

(** The stop handler stops the tracks of its stream on both of its
    paths. *)
Lemma onstop_releases (id n : nat) (mime : jsstring) (w : app) :
  streams w !! id = Some n ->
  streams (onstop id mime w) !! id = Some (S n).
Proof.
  intros Hid. unfold onstop.
  assert (Hs : streams (stopTracks id w) = <[id := S n]> (streams w)).
  { unfold stopTracks. now rewrite Hid. }
  assert (Hget : <[id := S n]> (streams w) !! id = Some (S n)).
  { apply list_lookup_insert_eq. now apply lookup_lt_Some in Hid. }
  destruct (length (newBlob (audioChunksRef (stopTracks id w))) <? 500)%nat;
    [|destruct (orElse (Some mime) (js "audio/webm"))]; simpl; now rewrite Hs.
Qed.

End ClientFacts.

(** ** The microphone *)

Section MicrophoneFacts.

(** Handlers that never touch the streams. *)
Lemma sendMessage_streams (t : option jsstring) (w : app) :
  streams (sendMessage t w) = streams w
  /\ recorders (sendMessage t w) = recorders w
  /\ mounted (sendMessage t w) = mounted w
  /\ mediaRecorderRef (sendMessage t w) = mediaRecorderRef w.
Proof.
  unfold sendMessage.
  destruct (negb (truthy (trim (dispatched t w)))); simpl; auto.
Qed.

Lemma transcribeSettles_streams (r : transcribeResult) (w : app) :
  streams (transcribeSettles r w) = streams w
  /\ recorders (transcribeSettles r w) = recorders w
  /\ mounted (transcribeSettles r w) = mounted w
  /\ mediaRecorderRef (transcribeSettles r w) = mediaRecorderRef w.
Proof.
  destruct r as [[t|] err|]; simpl; auto.
  destruct (truthy t); simpl; auto.
  apply (sendMessage_streams (Some t) (setIsTranscribing false w)).
Qed.

Lemma chatSettles_streams (r : chatResult) (w : app) :
  streams (chatSettles r w) = streams w
  /\ recorders (chatSettles r w) = recorders w
  /\ mounted (chatSettles r w) = mounted w
  /\ mediaRecorderRef (chatSettles r w) = mediaRecorderRef w.
Proof. destruct r; simpl; auto. Qed.

Lemma micSettles_streams (r : micResult) (w : app) :
  mounted (micSettles r w) = mounted w
  /\ exists new, streams (micSettles r w) = streams w ++ new.
Proof.
  destruct r as [mime|name]; simpl.
  - split; [done|]. now exists [0%nat].
  - destruct (jsEq name _ || jsEq name _); simpl;
      (split; [done|]); exists []; now rewrite app_nil_r.
Qed.

(** Once the component is unmounted it stays so, and no stream is ever
    released: only [stopListening] releases one, and the page can no
    longer call it. *)
Lemma step_browser (w : app) (e : event) :
  streams (step w e) = streams (react w e)
  /\ recorders (step w e) = recorders (react w e)
  /\ mounted (step w e) = mounted (react w e)
  /\ mediaRecorderRef (step w e) = mediaRecorderRef (react w e)
  /\ outbox (step w e) = outbox (react w e)
  /\ pendingMic (step w e) = pendingMic (react w e).
Proof. unfold step. now destruct (mounted w). Qed.

Lemma step_mounted (w : app) (e : event) :
  mounted w = true -> step w e = react w e.
Proof. unfold step. now intros ->. Qed.

Lemma unmounted_react (w : app) (e : event) :
  mounted w = false ->
  mounted (react w e) = false
  /\ forall id n, streams w !! id = Some n -> streams (react w e) !! id = Some n.
Proof.
  intros Hm.
  destruct e as [v|t| |d|d|r|r|r| ]; simpl; rewrite ?Hm; auto.
  - destruct (pendingMic w) as [|p]; [auto|].
    destruct (micSettles_streams r (setPendingMic p w)) as (Hm' & new & Hs).
    rewrite Hm', Hs. simpl. split; [done|].
    intros id n Hid. now apply lookup_app_l_Some.
  - destruct (pendingTranscribe w) as [|p]; [auto|].
    destruct (transcribeSettles_streams r (setPendingTranscribe p w))
      as (Hs & _ & Hm' & _).
    rewrite Hm', Hs. auto.
  - destruct (pendingChat w) as [|p]; [auto|].
    destruct (chatSettles_streams r (setPendingChat p w)) as (Hs & _ & Hm' & _).
    rewrite Hm', Hs. auto.
Qed.

Lemma unmounted_step (w : app) (e : event) :
  mounted w = false ->
  mounted (step w e) = false
  /\ forall id n, streams w !! id = Some n -> streams (step w e) !! id = Some n.
Proof.
  intros Hm. destruct (step_browser w e) as (-> & _ & -> & _).
  now apply unmounted_react.
Qed.

Lemma unmounted_run (es : list event) (w : app) (id n : nat) :
  mounted w = false ->
  streams w !! id = Some n ->
  streams (run w es) !! id = Some n.
Proof.
  revert w. induction es as [|e es IH]; intros w Hm Hid; simpl; [done|].
  destruct (unmounted_step w e Hm) as [Hm' Hkeep].
  apply IH; auto.
Qed.

Lemma run_app (w : app) (es1 es2 : list event) :
  run w (es1 ++ es2) = run (run w es1) es2.
Proof. apply fold_left_app. Qed.

(** C2, at the input where it fails.  A recording is started, the
    microphone is granted, and the component unmounts while recording.
    The stream is then held, and stays held whatever happens afterwards:
    the one acquisition is never matched by a release. *)
Theorem unmount_leaves_microphone_held (mime : jsstring) (es : list event) :
  held 0 (run app0 ([Start; MicSettles (Granted mime); Unmount] ++ es))
  /\ length (streams (run app0 [Start; MicSettles (Granted mime); Unmount]))
     = 1%nat.
Proof.
  split; [|reflexivity].
  unfold held. rewrite run_app. apply unmounted_run; reflexivity.
Qed.

(** The guard of [startListening] reads [isListening], which is set only
    once [getUserMedia] has settled: a second call before that passes
    the guard, both calls acquire a stream, and the ref keeps the second
    recorder only.  Stopping releases the second stream; the first can
    no longer be reached by any handler. *)
Lemma recorderStop_other (id id' : nat) (data : blob) (w : app) (n : nat) :
  id <> id' ->
  streams w !! id' = Some n ->
  streams (recorderStop id data w) !! id' = Some n
  /\ mediaRecorderRef (recorderStop id data w) = mediaRecorderRef w.
Proof.
  intros Hne Hid'. unfold recorderStop.
  destruct (recorders w !! id) as [[mime [|]]|]; auto.
  unfold onstop, stopTracks, ondataavailable.
  repeat match goal with
         | |- context [if ?b then _ else _] => destruct b
         | |- context [match ?x with Some _ => _ | None => _ end] =>
             destruct x eqn:?
         end; simpl in *; rewrite ?list_lookup_insert_ne; auto.
Qed.

Lemma orphaned_react (w : app) (e : event) : orphaned w -> orphaned (react w e).
Proof.
  intros [Hheld [j Href]]. unfold orphaned, held in *.
  assert (Hstop : forall d,
            streams (stopListening d w) !! 0%nat = Some 0%nat
            /\ exists id, mediaRecorderRef (stopListening d w) = Some (S id)).
  { intros d. unfold stopListening. rewrite Href.
    destruct (negb (isListening w)); [eauto|].
    destruct (recorderStop_other (S j) 0 d (setIsListening false w) 0)
      as [Hs Hr]; [lia|done|].
    rewrite Hs, Hr. simpl. eauto. }
  assert (Hstart : streams (startListening w) !! 0%nat = Some 0%nat
            /\ exists id, mediaRecorderRef (startListening w) = Some (S id)).
  { unfold startListening. destruct (isListening w || isTranscribing w);
      simpl; eauto. }
  destruct e as [v|t| |d|d|r|r|r| ]; simpl.
  - destruct (mounted w); simpl; eauto.
  - destruct (mounted w); [|eauto].
    destruct (sendMessage_streams t w) as (Hs & _ & _ & Hr).
    rewrite Hs, Hr. eauto.
  - destruct (mounted w); eauto.
  - destruct (mounted w); eauto.
  - destruct (mounted w); [|eauto]. unfold toggleListening.
    destruct (isListening w); eauto.
  - destruct (pendingMic w) as [|p]; [eauto|].
    destruct r as [mime|name]; simpl.
    + split; [now apply lookup_app_l_Some|].
      apply lookup_lt_Some in Hheld.
      destruct (length (streams w)) as [|len]; [lia|eauto].
    + destruct (jsEq name _ || jsEq name _); simpl; eauto.
  - destruct (pendingTranscribe w) as [|p]; [eauto|].
    destruct (transcribeSettles_streams r (setPendingTranscribe p w))
      as (Hs & _ & _ & Hr).
    rewrite Hs, Hr. simpl. eauto.
  - destruct (pendingChat w) as [|p]; [eauto|].
    destruct (chatSettles_streams r (setPendingChat p w)) as (Hs & _ & _ & Hr).
    rewrite Hs, Hr. simpl. eauto.
  - simpl. eauto.
Qed.

Lemma orphaned_step (w : app) (e : event) : orphaned w -> orphaned (step w e).
Proof.
  intros Hw. apply (orphaned_react w e) in Hw.
  unfold orphaned, held in *. destruct (step_browser w e) as (-> & _ & _ & -> & _).
  exact Hw.
Qed.

Lemma orphaned_run (es : list event) (w : app) : orphaned w -> orphaned (run w es).
Proof.
  revert w. induction es as [|e es IH]; intros w Hw; simpl; [done|].
  apply IH, orphaned_step, Hw.
Qed.


(** What does hold on every run: a recorder that records has its stream
    held, and one that was stopped has its stream released once.  No
    stream is released twice. *)
Lemma recorderStop_accounted (id : nat) (data : blob) (w : app) :
  Forall2 accounted (recorders w) (streams w) ->
  Forall2 accounted (recorders (recorderStop id data w))
    (streams (recorderStop id data w)).
Proof.
  intros Hacc. unfold recorderStop.
  destruct (recorders w !! id) as [[mime [|]]|] eqn:Hrec; auto.
  destruct (Forall2_lookup_l _ _ _ _ _ Hacc Hrec) as (n & Hn & Hrn).
  unfold accounted in Hrn. simpl in Hrn. subst n.
  assert (Hgoal : Forall2 accounted (<[id := Recorder mime false]> (recorders w))
                    (<[id := 1%nat]> (streams w))).
  { apply Forall2_insert; [done|reflexivity]. }
  unfold onstop, stopTracks, ondataavailable.
  case_ifs; simpl; rewrite ?Hn; simpl;
    repeat match goal with
           | |- context [if ?b then _ else _] => destruct b
           | |- context [match ?x with [] => _ | _ :: _ => _ end] => destruct x
           end; simpl; exact Hgoal.
Qed.

Lemma react_accounted (w : app) (e : event) :
  Forall2 accounted (recorders w) (streams w) ->
  Forall2 accounted (recorders (react w e)) (streams (react w e)).
Proof.
  intros Hacc.
  assert (Hstop : forall d,
            Forall2 accounted (recorders (stopListening d w))
              (streams (stopListening d w))).
  { intros d. unfold stopListening.
    destruct (mediaRecorderRef w) as [id|]; [|done].
    destruct (negb (isListening w)); [done|].
    now apply recorderStop_accounted. }
  assert (Hstart : Forall2 accounted (recorders (startListening w))
                     (streams (startListening w))).
  { unfold startListening. now destruct (isListening w || isTranscribing w). }
  destruct e as [v|t| |d|d|r|r|r| ]; simpl.
  - now destruct (mounted w).
  - destruct (mounted w); [|done].
    destruct (sendMessage_streams t w) as (Hs & Hr & _). now rewrite Hs, Hr.
  - now destruct (mounted w).
  - now destruct (mounted w).
  - destruct (mounted w); [|done]. unfold toggleListening.
    now destruct (isListening w).
  - destruct (pendingMic w) as [|p]; [done|].
    destruct r as [mime|name]; simpl.
    + apply Forall2_app; [done|]. now constructor.
    + now destruct (jsEq name _ || jsEq name _).
  - destruct (pendingTranscribe w) as [|p]; [done|].
    destruct (transcribeSettles_streams r (setPendingTranscribe p w))
      as (Hs & Hr & _).
    now rewrite Hs, Hr.
  - destruct (pendingChat w) as [|p]; [done|].
    destruct (chatSettles_streams r (setPendingChat p w)) as (Hs & Hr & _).
    now rewrite Hs, Hr.
  - done.
Qed.

Lemma step_accounted (w : app) (e : event) :
  Forall2 accounted (recorders w) (streams w) ->
  Forall2 accounted (recorders (step w e)) (streams (step w e)).
Proof.
  intros Hacc. destruct (step_browser w e) as (-> & -> & _).
  now apply react_accounted.
Qed.

Lemma run_accounted (es : list event) (w : app) :
  Forall2 accounted (recorders w) (streams w) ->
  Forall2 accounted (recorders (run w es)) (streams (run w es)).
Proof.
  revert w. induction es as [|e es IH]; intros w Hacc; simpl; [done|].
  apply IH, step_accounted, Hacc.
Qed.

Lemma released_at_most_once (es : list event) (id n : nat) :
  streams (run app0 es) !! id = Some n -> (n <= 1)%nat.
Proof.
  intros Hid.
  assert (Hacc : Forall2 accounted (recorders (run app0 es))
                   (streams (run app0 es))).
  { apply run_accounted. constructor. }
  destruct (Forall2_lookup_r _ _ _ _ _ Hacc Hid) as (r & _ & Hr).
  unfold accounted in Hr. destruct (recording r); lia.
Qed.

(** Stopping a recording releases the stream of the recorder in the ref,
    whatever the size of the blob. *)
Lemma stopListening_releases (data : blob) (w : app) (id : nat) (mime : jsstring) :
  isListening w = true ->
  mediaRecorderRef w = Some id ->
  recorders w !! id = Some (Recorder mime true) ->
  streams w !! id = Some 0%nat ->
  streams (stopListening data w) !! id = Some 1%nat
  /\ isListening (stopListening data w) = false.
Proof.
  intros Hl Href Hrec Hs. unfold stopListening. rewrite Href, Hl. simpl.
  unfold recorderStop. simpl. rewrite Hrec.
  split.
  - apply onstop_releases. unfold ondataavailable.
    now destruct (0 <? length data)%nat.
  - unfold onstop, stopTracks, ondataavailable.
    repeat match goal with
           | |- context [if ?b then _ else _] => destruct b
           | |- context [match ?x with Some _ => _ | None => _ end] =>
               destruct x
           | |- context [match ?x with [] => _ | _ :: _ => _ end] => destruct x
           end; reflexivity.
Qed.

Lemma doubleStart_granted (mime : jsstring) :
  run app0 [Start; Start; MicSettles (Granted mime); MicSettles (Granted mime)]
  = App [] [] true false None (Some 1%nat) [] true 0 [0%nat; 0%nat]
      [Recorder mime true; Recorder mime true] 0 0 [].
Proof. reflexivity. Qed.

Lemma double_start_orphans_a_stream (mime : jsstring) (data : blob)
    (es : list event) :
  held 0 (run app0 (doubleStart mime data ++ es))
  /\ streams (run app0 (doubleStart mime data)) !! 1%nat = Some 1%nat.
Proof.
  assert (Hsplit : forall tl,
            run app0 (doubleStart mime data ++ tl)
            = run (App [] [] true false None (Some 1%nat) [] true 0
                     [0%nat; 0%nat] [Recorder mime true; Recorder mime true]
                     0 0 [])
                (Stop data :: tl)).
  { intros tl. rewrite <- doubleStart_granted, <- run_app. reflexivity. }
  split.
  - rewrite Hsplit. apply orphaned_run.
    split; [reflexivity|]. now exists 0%nat.
  - rewrite <- (app_nil_r (doubleStart mime data)), Hsplit.
    apply (stopListening_releases data _ 1 mime); reflexivity.
Qed.

End MicrophoneFacts.

(** ** The transcription endpoint *)

Section ServerFacts.

Variable gemini : jsstring -> jsstring -> outcome.

(** A mime type with a parameter is cut at its first [;]. *)
Lemma safeMimeType_parameter (c p : jsstring) :
  59 ∉ c -> safeMimeType (Some (c ++ 59 :: p)) = trim c.
Proof.
  intros Hc. unfold safeMimeType, orElse.
  assert (Htruthy : truthy (c ++ 59 :: p) = true) by now destruct c.
  rewrite Htruthy. now rewrite split_head_before.
Qed.

(** One without a parameter is kept, up to surrounding white space. *)
Lemma safeMimeType_bare (c : jsstring) :
  59 ∉ c -> c <> [] -> safeMimeType (Some c) = trim c.
Proof.
  intros Hc Hne. unfold safeMimeType, orElse.
  destruct c as [|x c]; [done|]. simpl truthy. cbv iota.
  now rewrite split_head_whole.
Qed.

(** C1, as amended.  The client sends the recorder's mime type as it
    is, and the [/transcribe] handler hands the provider that mime type cut
    at its first [;] and trimmed.  For a recording of 500 bytes or more
    whose recorder chose [c;p], the request that leaves carries [c;p]; and
    for a request that carries audio and the mime type [c;p], the response
    is what the handler makes of the provider's outcome for [c], trimmed. *)
Theorem transcribe_strips_codec (id : nat) (w : app) (a c p : jsstring) :
  (500 <= length (newBlob (audioChunksRef w)))%nat ->
  a <> [] ->
  59 ∉ c ->
  outbox (onstop id (c ++ 59 :: p) w)
  = outbox w ++ [PostTranscribe (newBlob (audioChunksRef w)) (c ++ 59 :: p)]
  /\ transcribe gemini (TranscribeBody (Some a) (Some (c ++ 59 :: p)))
     = transcribeReply (gemini (trim c) a)
  /\ safeMimeType (Some (c ++ 59 :: p)) = trim c.
Proof.
  intros Hbig Ha Hc. split.
  - apply onstop_sends_actual_mime; [done|]. now destruct c.
  - unfold transcribe. simpl.
    destruct a as [|x a]; [done|]. simpl.
    now rewrite safeMimeType_parameter.
Qed.

(** C8.  The statuses of [/transcribe]: 400 when the audio is missing
    (or empty); 422 when the provider returns a text that trims to the
    empty string; 500 when the provider throws, with the provider's
    message as the error when it has one, and a fixed text otherwise. *)
Theorem transcribe_statuses (b : transcribeBody) :
  (truthyOpt (audio b) = false ->
   transcribe gemini b = Response 400 (ErrorBody (js "Audio data required")))
  /\ (forall a text,
        audio b = Some a -> a <> [] ->
        gemini (safeMimeType (mimeType b)) a = Returns text ->
        trim text = [] ->
        status (transcribe gemini b) = 422%nat
        /\ exists msg, body (transcribe gemini b) = ErrorBody msg)
  /\ (forall a m,
        audio b = Some a -> a <> [] ->
        gemini (safeMimeType (mimeType b)) a = Throws (Some m) ->
        m <> [] ->
        transcribe gemini b = Response 500 (ErrorBody m))
  /\ (forall a m,
        audio b = Some a -> a <> [] ->
        gemini (safeMimeType (mimeType b)) a = Throws m ->
        truthyOpt m = false ->
        transcribe gemini b
        = Response 500 (ErrorBody (js "Transcription failed"))).
Proof.
  unfold transcribe. split; [|split; [|split]].
  - destruct (audio b) as [[|x a]|]; simpl; [done|discriminate|done].
  - intros a text -> Ha Hg Htext. destruct a as [|x a]; [done|]. simpl.
    rewrite Hg. simpl. rewrite Htext. simpl. eauto.
  - intros a m -> Ha Hg Hm. destruct a as [|x a]; [done|]. simpl.
    rewrite Hg. simpl. now destruct m.
  - intros a m -> Ha Hg Hm. destruct a as [|x a]; [done|]. simpl.
    rewrite Hg. simpl. destruct m as [[|y m]|]; simpl in *; done.
Qed.

(** A transcript that does not trim to the empty string is returned,
    trimmed, with status 200. *)
Lemma transcribe_ok (b : transcribeBody) (a text : jsstring) :
  audio b = Some a -> a <> [] ->
  gemini (safeMimeType (mimeType b)) a = Returns text ->
  trim text <> [] ->
  transcribe gemini b = Response 200 (TranscriptBody (trim text)).
Proof.
  intros Hb Ha Hg Htext. unfold transcribe. rewrite Hb.
  destruct a as [|x a]; [done|]. simpl. rewrite Hg. simpl.
  now destruct (trim text).
Qed.

End ServerFacts.

Lemma transcribe_strips_codec_witness :
  outbox (onstop 0 (js "audio/webm" ++ 59 :: js "codecs=opus")
            (setAudioChunks [repeat Byte.x00 2000] app0))
  = outbox (setAudioChunks [repeat Byte.x00 2000] app0)
    ++ [PostTranscribe
          (newBlob (audioChunksRef (setAudioChunks [repeat Byte.x00 2000] app0)))
          (js "audio/webm" ++ 59 :: js "codecs=opus")]
  /\ transcribe strictProvider
       (TranscribeBody (Some (js "UklGRg"))
          (Some (js "audio/webm" ++ 59 :: js "codecs=opus")))
     = transcribeReply (strictProvider (trim (js "audio/webm")) (js "UklGRg"))
  /\ safeMimeType (Some (js "audio/webm" ++ 59 :: js "codecs=opus"))
     = trim (js "audio/webm").
Proof.
  apply (transcribe_strips_codec strictProvider 0
           (setAudioChunks [repeat Byte.x00 2000] app0)
           (js "UklGRg") (js "audio/webm") (js "codecs=opus")).
  - vm_compute. lia.
  - discriminate.
  - apply (bool_decide_unpack _). vm_compute. reflexivity.
Defined.

(** ** Regular expressions: what the matcher finds *)

Section RegexFacts.

Local Open Scope nat_scope.

Implicit Types (r : regex) (k : nat -> jsstring -> option nat).
Implicit Types (s w : jsstring) (i e : nat).

Lemma many_zero p k i s e :
  k i s = Some e -> exists e', many p k i s = Some e'.
Proof.
  intros Hk. destruct s as [|c s]; simpl; [eauto|].
  destruct (p c); [|eauto].
  destruct (many p k (S i) s); eauto.
Qed.

Lemma many_complete p k w : forall i s e,
  Forall (fun c => p c = true) w ->
  k (i + length w) s = Some e ->
  exists e', many p k i (w ++ s) = Some e'.
Proof.
  induction w as [|c w IH]; intros i s e Hw Hk; simpl in *.
  - rewrite Nat.add_0_r in Hk. eapply many_zero, Hk.
  - apply Forall_cons in Hw as [Hc Hw]. rewrite Hc.
    destruct (IH (S i) s e Hw) as [e' He'].
    { now rewrite <- Hk, Nat.add_succ_comm. }
    rewrite He'. eauto.
Qed.

Lemma many_sound p k s : forall i e,
  many p k i s = Some e ->
  exists w s', s = w ++ s' /\ Forall (fun c => p c = true) w
               /\ k (i + length w) s' = Some e.
Proof.
  induction s as [|c s IH]; intros i e Hm; simpl in Hm.
  - exists [], []. rewrite Nat.add_0_r. auto.
  - destruct (p c) eqn:Hc.
    + destruct (many p k (S i) s) as [e1|] eqn:Hdeep.
      * injection Hm as <-.
        destruct (IH _ _ Hdeep) as (w & s' & -> & Hw & Hk).
        exists (c :: w), s'. simpl. rewrite <- Nat.add_succ_comm. auto.
      * exists [], (c :: s). rewrite Nat.add_0_r. auto.
    + exists [], (c :: s). rewrite Nat.add_0_r. auto.
Qed.

Lemma rmatch_sound r : forall k i s e,
  rmatch r k i s = Some e ->
  exists w s', s = w ++ s' /\ matches r i w /\ k (i + length w) s' = Some e.
Proof.
  induction r as [| |p|r1 IH1 r2 IH2|r1 IH1 r2 IH2|p]; intros k i s e Hm;
    simpl in Hm.
  - exists [], s. rewrite Nat.add_0_r. repeat split; [constructor|done].
  - destruct (Nat.eqb_spec i 0) as [->|_]; [|done].
    exists [], s. repeat split; [constructor|done].
  - destruct s as [|c s]; [done|]. destruct (p c) eqn:Hc; [|done].
    exists [c], s. simpl. rewrite Nat.add_1_r.
    repeat split; [now constructor|done].
  - destruct (IH1 _ _ _ _ Hm) as (w1 & s1 & -> & H1 & Hm2).
    destruct (IH2 _ _ _ _ Hm2) as (w2 & s2 & -> & H2 & Hk).
    exists (w1 ++ w2), s2. rewrite <- app_assoc, length_app, Nat.add_assoc.
    repeat split; [now constructor|done].
  - destruct (rmatch r1 k i s) as [e1|] eqn:Hleft.
    + injection Hm as <-.
      destruct (IH1 _ _ _ _ Hleft) as (w & s' & -> & H1 & Hk).
      exists w, s'. repeat split; [now apply M_alt_l|done].
    + destruct (IH2 _ _ _ _ Hm) as (w & s' & -> & H2 & Hk).
      exists w, s'. repeat split; [now apply M_alt_r|done].
  - destruct (many_sound _ _ _ _ _ Hm) as (w & s' & -> & Hw & Hk).
    exists w, s'. repeat split; [now constructor|done].
Qed.

Lemma rmatch_complete r i w :
  matches r i w ->
  forall k s e, k (i + length w) s = Some e ->
  exists e', rmatch r k i (w ++ s) = Some e'.
Proof.
  induction 1 as [i| |p c i Hc|r1 r2 i w1 w2 _ IH1 _ IH2|r1 r2 i w _ IH
                 |r1 r2 i w _ IH|p i w Hw]; intros k s e Hk; simpl in *.
  - rewrite Nat.add_0_r in Hk. eauto.
  - eauto.
  - rewrite Hc. rewrite Nat.add_1_r in Hk. eauto.
  - rewrite length_app, Nat.add_assoc in Hk.
    destruct (IH2 _ _ _ Hk) as [e2 He2].
    rewrite <- app_assoc. eapply IH1, He2.
  - destruct (IH _ _ _ Hk) as [e' ->]. eauto.
  - destruct (rmatch r1 k i (w ++ s)); [eauto|]. eapply IH, Hk.
  - eapply many_complete; eauto.
Qed.

Lemma search_sound r s : forall i b e,
  search r i s = Some (b, e) ->
  exists pre w post,
    s = pre ++ w ++ post /\ b = (i + length pre)%nat
    /\ e = (b + length w)%nat /\ matches r b w.
Proof.
  induction s as [|c s IH]; intros i b e Hs; simpl in Hs.
  - destruct (rmatch r accept i []) as [e1|] eqn:Hm; [|done].
    injection Hs as <- <-.
    destruct (rmatch_sound _ _ _ _ _ Hm) as (w & s' & Hsplit & Hw & Hk).
    injection Hk as <-.
    exists [], w, s'. simpl. rewrite Nat.add_0_r. auto.
  - destruct (rmatch r accept i (c :: s)) as [e1|] eqn:Hm.
    + injection Hs as <- <-.
      destruct (rmatch_sound _ _ _ _ _ Hm) as (w & s' & Hsplit & Hw & Hk).
      injection Hk as <-.
      exists [], w, s'. simpl. rewrite Nat.add_0_r. auto.
    + destruct (IH _ _ _ Hs) as (pre & w & post & -> & -> & -> & Hw).
      exists (c :: pre), w, post. simpl.
      rewrite <- Nat.add_succ_comm. auto.
Qed.

Lemma search_complete r w post pre : forall i,
  matches r (i + length pre) w ->
  exists x, search r i (pre ++ w ++ post) = Some x.
Proof.
  induction pre as [|c pre IH]; intros i Hw; simpl in *.
  - rewrite Nat.add_0_r in Hw.
    destruct (rmatch_complete _ _ _ Hw accept post (i + length w)%nat eq_refl)
      as [e He].
    destruct (w ++ post); simpl; rewrite He; eauto.
  - destruct (rmatch r accept i (c :: pre ++ w ++ post)); [eauto|].
    apply IH. now rewrite Nat.add_succ_comm.
Qed.

(** [r.test(s)] holds exactly when [r] matches some part of [s]. *)
Lemma test_spec r s :
  test r s = true <->
  exists pre w post, s = pre ++ w ++ post /\ matches r (length pre) w.
Proof.
  unfold test, exec. split.
  - destruct (search r 0 s) as [[b e]|] eqn:Hs; [|done]. intros _.
    destruct (search_sound _ _ _ _ _ Hs) as (pre & w & post & -> & -> & _ & Hw).
    eauto 6.
  - intros (pre & w & post & -> & Hw).
    destruct (search_complete r w post pre 0 Hw) as [x ->]. done.
Qed.

(** A pattern that starts with [^] matches at index 0 or nowhere. *)
Lemma search_bol_later r s : forall i, search (Cat Bol r) (S i) s = None.
Proof. induction s as [|c s IH]; intros i; simpl; auto. Qed.

Lemma exec_bol r s :
  exec (Cat Bol r) s
  = match rmatch r accept 0 s with Some e => Some (0%nat, e) | None => None end.
Proof.
  unfold exec. destruct s as [|c s]; simpl.
  - now destruct (rmatch r accept 0 []).
  - destruct (rmatch r accept 0 (c :: s)); [done|]. apply search_bol_later.
Qed.


Lemma matches_seq_cons r rs i w1 w2 :
  matches r i w1 -> matches (seq rs) (i + length w1) w2 ->
  matches (seq (r :: rs)) i (w1 ++ w2).
Proof. intros. now constructor. Qed.

Lemma matches_seq_last r i w : matches r i w -> matches (seq [r]) i w.
Proof.
  intros Hw. rewrite <- (app_nil_r w). apply matches_seq_cons; [done|constructor].
Qed.

(** The greedy run: the whole run is taken when what follows it cannot
    extend it and the continuation accepts there. *)
Lemma many_run p k run : forall i rest e,
  Forall (fun c => p c = true) run ->
  stopsRun p rest ->
  k (i + length run) rest = Some e ->
  many p k i (run ++ rest) = Some e.
Proof.
  induction run as [|c run IH]; intros i rest e Hrun Hrest Hk; simpl in *.
  - rewrite Nat.add_0_r in Hk.
    destruct rest as [|c rest]; simpl in *; [done|]. now rewrite Hrest.
  - apply Forall_cons in Hrun as [Hc Hrun]. rewrite Hc.
    rewrite (IH (S i) rest e); auto. now rewrite <- Hk, Nat.add_succ_comm.
Qed.

Lemma stopsRun_dropWhile p s : stopsRun p (dropWhile p s).
Proof.
  induction s as [|c s IH]; simpl; [done|].
  destruct (p c) eqn:Hc; [done|]. simpl. done.
Qed.

(** A string is a run of [p] followed by what [dropWhile] leaves. *)
Lemma run_dropWhile p s :
  exists run, s = run ++ dropWhile p s /\ Forall (fun c => p c = true) run.
Proof.
  induction s as [|c s (run & Hs & Hrun)]; simpl.
  - now exists [].
  - destruct (p c) eqn:Hc.
    + exists (c :: run). simpl. split; [congruence|]. now constructor.
    + now exists [].
Qed.

End RegexFacts.

(** ** The reply parser *)

Section ParserFacts.

Implicit Types (st : scan) (line : jsstring) (k : key).

Lemma scanLines_app st (l1 l2 : list jsstring) :
  scanLines st (l1 ++ l2) = scanLines (scanLines st l1) l2.
Proof. apply fold_left_app. Qed.

Lemma scanLine_header st line k :
  headerOf line = Some k ->
  scanLine st line = Scan (<[k := headerValue k line]> (sections st)) (Some k).
Proof. intros H. unfold scanLine. now rewrite H. Qed.

Lemma scanLine_closed st line :
  headerOf line = None -> openArray st = false -> scanLine st line = st.
Proof.
  intros H Hopen. unfold scanLine. rewrite H, Hopen.
  now rewrite !andb_false_r.
Qed.

Lemma isArr_headerValue k line : isArr (headerValue k line) = isListKey k.
Proof. unfold headerValue. now destruct (isListKey k). Qed.

Lemma push_sections st item k :
  sections (push st item) !! k
  = match currentKey st with
    | Some k' =>
        match sections st !! k' with
        | Some (Arr items) =>
            if decide (k' = k) then Some (Arr (items ++ [item]))
            else sections st !! k
        | _ => sections st !! k
        end
    | None => sections st !! k
    end.
Proof.
  unfold push. destruct (currentKey st) as [k'|]; [|done].
  destruct (sections st !! k') as [[s|items]|]; try done.
  simpl. now rewrite lookup_insert.
Qed.

Lemma push_currentKey st item : currentKey (push st item) = currentKey st.
Proof.
  unfold push. destruct (currentKey st) as [k'|] eqn:Hcur; [|done].
  now destruct (sections st !! k') as [[s|items]|].
Qed.

Lemma push_wellTyped st item : wellTyped st -> wellTyped (push st item).
Proof.
  intros [Hty Hcur]. split.
  - intros k v. rewrite push_sections.
    destruct (currentKey st) as [k'|]; [|apply Hty].
    destruct (sections st !! k') as [[s|items]|] eqn:Hk'; try apply Hty.
    case_decide as Hkk; [|apply Hty].
    subst k'. intros [= <-]. apply (Hty _ _ Hk').
  - intros k. rewrite push_currentKey, push_sections. intros Hk.
    rewrite Hk. destruct (Hcur _ Hk) as [v Hv]. rewrite Hv.
    destruct v; [eauto|]. case_decide; eauto.
Qed.

Lemma scanLine_wellTyped st line : wellTyped st -> wellTyped (scanLine st line).
Proof.
  intros Hst. unfold scanLine.
  destruct (headerOf line) as [k|].
  - destruct Hst as [Hty Hcur]. split; simpl.
    + intros k' v. rewrite lookup_insert. case_decide.
      * intros [= <-]. subst. apply isArr_headerValue.
      * apply Hty.
    + intros k' [= <-]. rewrite lookup_insert_eq. eauto.
  - case_ifs; auto using push_wellTyped.
Qed.

Lemma scanLines_wellTyped (ls : list jsstring) : forall st,
  wellTyped st -> wellTyped (scanLines st ls).
Proof.
  induction ls as [|l ls IH]; intros st Hst; simpl; [done|].
  apply IH, scanLine_wellTyped, Hst.
Qed.

Lemma scan0_wellTyped : wellTyped scan0.
Proof. split; [intros k v|intros k]; simpl; [now rewrite lookup_empty|done]. Qed.

(** In a well-typed scan the array test is a test of the current key. *)
Lemma openArray_wellTyped st :
  wellTyped st ->
  openArray st = match currentKey st with
                 | Some k => isListKey k
                 | None => false
                 end.
Proof.
  intros [Hty Hcur]. unfold openArray.
  destruct (currentKey st) as [k|]; [|done].
  destruct (Hcur k eq_refl) as [v Hv]. rewrite Hv.
  rewrite <- (Hty _ _ Hv). now destruct v.
Qed.

Lemma startsWith_dash line : startsWith (js "-") line = true <-> dashed line.
Proof.
  unfold dashed. destruct line as [|c line].
  - split; [done|]. now intros [rest H].
  - change (startsWith (js "-") (c :: line)) with ((45 =? c) && true).
    rewrite andb_true_r, N.eqb_eq. split.
    + intros <-. eauto.
    + now intros [rest [= <- _]].
Qed.

Lemma test_numberedRe line : test numberedRe line = true <-> numbered line.
Proof.
  rewrite test_spec. unfold numberedRe, numbered, Plus. simpl seq. split.
  - intros (pre & w & post & -> & Hw).
    inversion Hw as [| | |? ? ? w0 w1 Hbol Hrest| | |]; subst; clear Hw.
    inversion Hbol; subst; clear Hbol.
    destruct pre; [|done]. simpl in *.
    inversion Hrest as [| | |? ? ? w2 w3 Hplus Hdot| | |]; subst; clear Hrest.
    inversion Hplus as [| | |? ? ? w4 w5 Hone Hmany| | |]; subst; clear Hplus.
    inversion Hone; subst; clear Hone.
    inversion Hmany; subst; clear Hmany.
    inversion Hdot as [| | |? ? ? w6 w7 Hchr Heps| | |]; subst; clear Hdot.
    inversion Hchr as [| |? c' ? Hc'| | | |]; subst; clear Hchr.
    inversion Heps; subst; clear Heps.
    apply N.eqb_eq in Hc'. subst c'.
    eexists (_ :: _), post. split; [done|]. split.
    + constructor; eassumption.
    + simpl. now rewrite <- !app_assoc.
  - intros (run & rest & Hne & Hrun & ->).
    destruct run as [|c run]; [done|]. apply Forall_cons in Hrun as [Hc Hrun].
    exists [], ((c :: run) ++ [46%N]), rest. split.
    { simpl. now rewrite <- app_assoc. }
    apply (M_cat _ _ _ []); [constructor|]. simpl.
    apply (M_cat _ _ _ (c :: run) [46%N]).
    + apply (M_cat _ _ _ [c] run); now constructor.
    + apply matches_seq_last. now constructor.
Qed.

(** A line that is neither a header nor a bullet, as the scan tells
    bullets, changes nothing, whatever the scan holds. *)
Lemma scanLine_plain st line :
  headerOf line = None -> ~ dashed line -> ~ numbered line ->
  scanLine st line = st.
Proof.
  intros H Hdash Hnum. unfold scanLine. rewrite H.
  destruct (startsWith (js "-") line) eqn:Hd.
  { now apply startsWith_dash in Hd. }
  destruct (test numberedRe line) eqn:Hn.
  { now apply test_numberedRe in Hn. }
  done.
Qed.

Lemma scanLines_no_header (pre : list jsstring) :
  Forall (fun l => headerOf l = None) pre -> scanLines scan0 pre = scan0.
Proof.
  induction pre as [|l pre IH] using rev_ind; intros Hpre; [done|].
  apply Forall_app in Hpre as [Hpre Hl]. apply Forall_cons in Hl as [Hl _].
  rewrite scanLines_app, (IH Hpre). simpl. now apply scanLine_closed.
Qed.

End ParserFacts.

(** ** The reply parser: headers, plain lines and closed sections *)

Section SectionFacts.

Implicit Types (st : scan) (line : jsstring) (k : key).

Lemma openArray_agree k st1 st2 :
  agree k st1 st2 -> currentKey st1 = Some k -> openArray st1 = openArray st2.
Proof.
  intros [Hcur Hk] Hone. unfold openArray.
  rewrite <- Hcur, Hone, Hk. done.
Qed.

Lemma push_agree k st1 st2 item :
  agree k st1 st2 -> currentKey st1 = Some k ->
  agree k (push st1 item) (push st2 item).
Proof.
  intros [Hcur Hk] Hone. split.
  - now rewrite !push_currentKey.
  - rewrite !push_sections, <- Hcur, Hone, <- Hk.
    destruct (sections st1 !! k) as [[s|items]|]; done.
Qed.

Lemma push_elsewhere k st item :
  currentKey st <> Some k -> sections (push st item) !! k = sections st !! k.
Proof.
  intros Hne. rewrite push_sections.
  destruct (currentKey st) as [k'|]; [|done].
  destruct (sections st !! k') as [[s|items]|]; try done.
  case_decide; [congruence|done].
Qed.

(** Two scans that agree on the current key and on section [k] still do
    after one more line. *)
Lemma scanLine_agree k st1 st2 line :
  agree k st1 st2 -> agree k (scanLine st1 line) (scanLine st2 line).
Proof.
  intros Hag. unfold scanLine.
  destruct (headerOf line) as [k'|].
  { split; simpl; [done|]. rewrite !lookup_insert.
    case_decide; [done|apply Hag]. }
  destruct (decide (currentKey st1 = Some k)) as [Hone|Hother].
  - rewrite <- (openArray_agree _ _ _ Hag Hone).
    case_ifs; auto using push_agree.
  - assert (Hother2 : currentKey st2 <> Some k).
    { destruct Hag as [<- _]. done. }
    destruct Hag as [Hcur Hk].
    case_ifs; (split; [now rewrite ?push_currentKey
                        |now rewrite ?push_elsewhere]).
Qed.

Lemma scanLines_agree k (ls : list jsstring) : forall st1 st2,
  agree k st1 st2 -> agree k (scanLines st1 ls) (scanLines st2 ls).
Proof.
  induction ls as [|l ls IH]; intros st1 st2 Hag; simpl; [done|].
  apply IH, scanLine_agree, Hag.
Qed.



(** What came before a header line of kind [k] does not show in section
    [k] of the result. *)
Lemma section_forgets_prefix (pre post : list jsstring) (h : jsstring) (k : key) :
  headerOf h = Some k ->
  sections (scanLines scan0 (pre ++ h :: post)) !! k
  = sections (scanLines scan0 (h :: post)) !! k.
Proof.
  intros Hh. rewrite scanLines_app. simpl.
  apply scanLines_agree. split.
  - now rewrite !(scanLine_header _ _ _ Hh).
  - rewrite !(scanLine_header _ _ _ Hh). simpl. now rewrite !lookup_insert_eq.
Qed.

(** C6, as amended.  Lines before the first header and plain lines that
    match no header pattern are dropped.  For a text whose lines are
    [pre] then [rest], where no line of [pre] matches a header pattern,
    the result is that of [rest] alone; a line that matches no header
    pattern and starts neither with [-] nor with a run of [-], [•], [*]
    and digits followed by [.] leaves any scan as it was, one with an
    open list section too; a bullet line before its header is not
    attached to it; and a line that matches a header pattern, bullet or
    not, is taken as the header of the first kind it matches. *)
Theorem dropped_lines :
  (forall text pre rest,
     lines text = pre ++ rest ->
     Forall (fun l => headerOf l = None) pre ->
     parseSections text = sections (scanLines scan0 rest))
  /\ (forall st line,
        headerOf line = None -> ~ dashed line -> ~ numbered line ->
        scanLine st line = st)
  /\ parseSections (js "- chest pain" ++ 10 :: js "Next Steps:")
     = {[NextSteps := Arr []]}
  /\ (forall st line k,
        headerOf line = Some k ->
        scanLine st line
        = Scan (<[k := headerValue k line]> (sections st)) (Some k)).
Proof.
  split; [|split; [|split]].
  - intros text pre rest Hlines Hpre. unfold parseSections.
    now rewrite Hlines, scanLines_app, scanLines_no_header.
  - apply scanLine_plain.
  - vm_compute. reflexivity.
  - apply scanLine_header.
Qed.

(** C10, as amended.  Outside a list section nothing is appended.  When the scan of
    the lines so far has no current section, or a scalar one, the next
    line, bullet or not, appends to no list: a list section afterwards
    is as it was before, or empty.  The value of the current scalar
    section stays as it was unless the line is itself a header of that
    kind; and a line that matches no header pattern leaves the scan
    exactly as it was. *)
Theorem bullet_outside_list_dropped (pre : list jsstring) (line : jsstring) :
  (currentKey (scanLines scan0 pre) = None
   \/ exists k, currentKey (scanLines scan0 pre) = Some k
                /\ isListKey k = false) ->
  (forall k items,
     sections (scanLines scan0 (pre ++ [line])) !! k = Some (Arr items) ->
     sections (scanLines scan0 pre) !! k = Some (Arr items) \/ items = [])
  /\ (forall k,
        currentKey (scanLines scan0 pre) = Some k ->
        headerOf line <> Some k ->
        sections (scanLines scan0 (pre ++ [line])) !! k
        = sections (scanLines scan0 pre) !! k)
  /\ (headerOf line = None ->
      scanLines scan0 (pre ++ [line]) = scanLines scan0 pre).
Proof.
  intros Hcur. rewrite scanLines_app. simpl.
  set (st := scanLines scan0 pre) in *.
  assert (Hwt : wellTyped st) by apply scanLines_wellTyped, scan0_wellTyped.
  assert (Hclosed : openArray st = false).
  { rewrite (openArray_wellTyped _ Hwt).
    destruct Hcur as [->|(k & -> & Hk)]; done. }
  split; [|split].
  - intros k items. destruct (headerOf line) as [k'|] eqn:Hh.
    + rewrite (scanLine_header _ _ _ Hh). simpl. rewrite lookup_insert.
      case_decide; [|auto]. unfold headerValue.
      destruct (isListKey k'); [|done]. intros [= <-]. auto.
    + rewrite (scanLine_closed _ _ Hh Hclosed). auto.
  - intros k _ Hne. destruct (headerOf line) as [k'|] eqn:Hh.
    + rewrite (scanLine_header _ _ _ Hh). simpl.
      apply lookup_insert_ne. congruence.
    + now rewrite (scanLine_closed _ _ Hh Hclosed).
  - intros Hh. now apply scanLine_closed.
Qed.

End SectionFacts.

(** ** Bullets *)

Section BulletFacts.

Implicit Types (st : scan) (line : jsstring) (k : key).

Local Open Scope nat_scope.

Lemma replace_dashRe (rest : jsstring) : replace dashRe [] (45%N :: rest) = rest.
Proof.
  unfold replace, dashRe. simpl seq. rewrite exec_bol. simpl. apply drop_0.
Qed.

Lemma many_accept p (s : jsstring) i :
  exists run, s = run ++ dropWhile p s
              /\ many p (rmatch Eps accept) i s = Some (i + length run).
Proof.
  destruct (run_dropWhile p s) as (run & Hs & Hrun).
  exists run. split; [done|].
  rewrite Hs at 1. apply many_run; [done|apply stopsRun_dropWhile|done].
Qed.

(** The pattern [^[-•*0-9.]+\s*] takes the whole leading run of marker
    characters and dots, and the white space after it. *)
Lemma replace_markerRe (c : N) (rest : jsstring) :
  markerDotClass c = true ->
  replace markerRe [] (c :: rest)
  = dropWhile ws (dropWhile markerDotClass (c :: rest)).
Proof.
  intros Hc. unfold replace, markerRe, Plus. simpl seq. rewrite exec_bol.
  simpl rmatch. rewrite Hc. simpl dropWhile. rewrite Hc.
  destruct (run_dropWhile markerDotClass rest) as (run1 & Hrest & Hrun1).
  set (tail := dropWhile markerDotClass rest) in *.
  destruct (many_accept ws tail (1 + length run1)) as (run2 & Htail & Hmany).
  match goal with
  | |- context [many markerDotClass ?k 1 rest] =>
      assert (Hm : many markerDotClass k 1 rest
                   = Some (1 + length run1 + length run2))
  end.
  { rewrite Hrest at 1.
    apply many_run; [done|apply stopsRun_dropWhile|exact Hmany]. }
  rewrite Hm. simpl.
  rewrite Hrest, Htail at 1.
  rewrite <- length_app, app_assoc.
  now rewrite drop_app_length.
Qed.

Lemma dropWhile_idem p (s : jsstring) :
  dropWhile p (dropWhile p s) = dropWhile p s.
Proof.
  induction s as [|c s IH]; simpl; [done|].
  destruct (p c) eqn:Hc; [done|]. simpl. now rewrite Hc.
Qed.

Lemma trim_dropWhile_ws (s : jsstring) : trim (dropWhile ws s) = trim s.
Proof. unfold trim, trimStart, ws. now rewrite dropWhile_idem. Qed.

(** [push] appends at the end of the open list. *)
Lemma push_open st k items item :
  currentKey st = Some k ->
  sections st !! k = Some (Arr items) ->
  push st item = Scan (<[k := Arr (items ++ [item])]> (sections st)) (Some k).
Proof. intros Hcur Hk. unfold push. now rewrite Hcur, Hk. Qed.

(** Under an open list section, a line that starts with [-] and matches
    no header pattern is appended without that [-], trimmed. *)
Lemma scanLine_dashed st (rest : jsstring) :
  headerOf (45%N :: rest) = None ->
  openArray st = true ->
  scanLine st (45%N :: rest) = push st (trim rest).
Proof.
  intros Hh Hopen. unfold scanLine. rewrite Hh, Hopen.
  assert (Hd : startsWith (js "-") (45%N :: rest) = true).
  { apply startsWith_dash. now exists rest. }
  rewrite Hd. simpl. now rewrite replace_dashRe.
Qed.

(** Under an open list section, a line that starts with a run of marker
    characters followed by [.], does not start with [-] and matches no
    header pattern is appended without its leading marker characters and
    dots, trimmed. *)
Lemma scanLine_numbered st line :
  headerOf line = None ->
  openArray st = true ->
  ~ dashed line ->
  numbered line ->
  scanLine st line = push st (trim (dropWhile markerDotClass line)).
Proof.
  intros Hh Hopen Hdash Hnum. unfold scanLine. rewrite Hh, Hopen.
  destruct (startsWith (js "-") line) eqn:Hd.
  { now apply startsWith_dash in Hd. }
  assert (Hn : test numberedRe line = true) by now apply test_numberedRe.
  rewrite Hn. simpl.
  destruct Hnum as (run & rest & Hne & Hrun & ->).
  destruct run as [|c run]; [done|]. apply Forall_cons in Hrun as [Hc Hrun].
  rewrite <- app_comm_cons, replace_markerRe.
  - now rewrite trim_dropWhile_ws.
  - unfold markerDotClass. now rewrite Hc.
Qed.

(** A line that starts with [•] or [*] and a space, and matches no header
    pattern, is dropped, under an open list section too: the pattern
    that would take it asks for a [.] right after the markers. *)
Lemma scanLine_bullet_or_star st (c : N) (rest : jsstring) :
  c = bulletChar \/ c = 42%N ->
  headerOf (c :: 32%N :: rest) = None ->
  scanLine st (c :: 32%N :: rest) = st.
Proof.
  intros Hc Hh. apply scanLine_plain; [done| |].
  - intros [rest' [= -> _]]. now destruct Hc.
  - intros (run & rest' & Hne & Hrun & Heq).
    destruct run as [|c0 [|c1 run]]; [done| |].
    + simpl in Heq. now injection Heq.
    + simpl in Heq. injection Heq as _ <- _.
      apply Forall_cons in Hrun as [_ Hrun].
      apply Forall_cons in Hrun as [Hsp _]. done.
Qed.

(** C3, at the input where it fails.  Under the open section Next Steps,
    the lines [• rest] and [* hydrate] are dropped, while [- sleep] and
    [1. eat] are appended in order. *)
Theorem bullet_and_star_lines_dropped :
  parseSections
    (js "Next Steps:" ++ 10%N :: (bulletChar :: js " rest")
     ++ 10%N :: js "* hydrate" ++ 10%N :: js "- sleep" ++ 10%N :: js "1. eat")
  = {[NextSteps := Arr [js "sleep"; js "eat"]]}.
Proof. vm_compute. reflexivity. Qed.

End BulletFacts.

(** ** The See a Doctor If pattern *)

Section SeeADoctorFacts.

Implicit Types (st : scan) (line : jsstring).

Lemma headerOf_seeADoctor line :
  headerOf line = Some SeeADoctorIf <->
  test (matchers Severity) line = false
  /\ test (matchers ImmediateNeed) line = false
  /\ test (matchers SeeADoctorIf) line = true.
Proof.
  unfold headerOf, keys. cbn [List.find].
  destruct (test (matchers Severity) line).
  { split; [discriminate|]. intros [H _]. discriminate H. }
  destruct (test (matchers ImmediateNeed) line).
  { split; [discriminate|]. intros (_ & H & _). discriminate H. }
  destruct (test (matchers SeeADoctorIf) line); [done|].
  split; [|intros (_ & _ & H); discriminate H].
  case_ifs; discriminate.
Qed.


End SeeADoctorFacts.

(** ** The properties at concrete inputs *)

(** C1, as stated, fails.  For a recording of 2000 bytes whose recorder
    chose [audio/webm;codecs=opus], the request the client sends to
    [/transcribe] carries that mime type with its codec parameter, not
    [audio/webm]. *)
Lemma client_sends_codec_parameter :
  outbox
    (run app0
       [Start; MicSettles (Granted (js "audio/webm;codecs=opus"));
        Stop (repeat Byte.x00 2000)])
  = [PostTranscribe (repeat Byte.x00 2000) (js "audio/webm;codecs=opus")]
  /\ js "audio/webm;codecs=opus" <> js "audio/webm".
Proof. split; [vm_compute; reflexivity|discriminate]. Qed.

Lemma transcribe_statuses_witness :
  transcribe silentProvider (TranscribeBody None (Some (js "audio/webm")))
  = Response 400 (ErrorBody (js "Audio data required"))
  /\ status (transcribe silentProvider
               (TranscribeBody (Some (js "UklGRg")) (Some (js "audio/webm"))))
     = 422%nat
  /\ transcribe failingProvider
       (TranscribeBody (Some (js "UklGRg")) (Some (js "audio/webm")))
     = Response 500 (ErrorBody (js "429 quota exceeded"))
  /\ transcribe brokenProvider
       (TranscribeBody (Some (js "UklGRg")) (Some (js "audio/webm")))
     = Response 500 (ErrorBody (js "Transcription failed")).
Proof.
  split; [|split; [|split]].
  - apply (proj1 (transcribe_statuses silentProvider
                    (TranscribeBody None (Some (js "audio/webm"))))).
    reflexivity.
  - apply (proj1 (proj2 (transcribe_statuses silentProvider
                    (TranscribeBody (Some (js "UklGRg")) (Some (js "audio/webm")))))
             (js "UklGRg") (js "  "));
      solve [reflexivity | discriminate].
  - apply (proj1 (proj2 (proj2 (transcribe_statuses failingProvider
                    (TranscribeBody (Some (js "UklGRg")) (Some (js "audio/webm"))))))
             (js "UklGRg") (js "429 quota exceeded"));
      solve [reflexivity | discriminate].
  - apply (proj2 (proj2 (proj2 (transcribe_statuses brokenProvider
                    (TranscribeBody (Some (js "UklGRg")) (Some (js "audio/webm"))))))
             (js "UklGRg") None);
      solve [reflexivity | discriminate].
Defined.

Lemma dropped_lines_witness :
  parseSections (js "Here is my advice" ++ 10 :: js "Severity: High")
  = sections (scanLines scan0 [js "Severity: High"])
  /\ scanLine (Scan {[NextSteps := Arr []]} (Some NextSteps)) (js "Stay calm")
     = Scan {[NextSteps := Arr []]} (Some NextSteps).
Proof.
  split.
  - apply (proj1 dropped_lines
             (js "Here is my advice" ++ 10 :: js "Severity: High")
             [js "Here is my advice"] [js "Severity: High"]).
    + vm_compute. reflexivity.
    + constructor; [vm_compute; reflexivity|constructor].
  - apply (proj1 (proj2 dropped_lines)).
    + vm_compute. reflexivity.
    + intros [rest H]. discriminate H.
    + intros (run & rest & Hne & Hrun & Heq).
      destruct run as [|c run]; [done|].
      injection Heq as <- _. apply Forall_cons in Hrun as [Hc _].
      discriminate Hc.
Defined.

Lemma bullet_outside_list_dropped_witness :
  (forall k items,
     sections (scanLines scan0 ([js "Severity: High"] ++ [js "- rest"])) !! k
     = Some (Arr items) ->
     sections (scanLines scan0 [js "Severity: High"]) !! k = Some (Arr items)
     \/ items = [])
  /\ (forall k,
        currentKey (scanLines scan0 [js "Severity: High"]) = Some k ->
        headerOf (js "- rest") <> Some k ->
        sections (scanLines scan0 ([js "Severity: High"] ++ [js "- rest"])) !! k
        = sections (scanLines scan0 [js "Severity: High"]) !! k)
  /\ (headerOf (js "- rest") = None ->
      scanLines scan0 ([js "Severity: High"] ++ [js "- rest"])
      = scanLines scan0 [js "Severity: High"]).
Proof.
  apply (bullet_outside_list_dropped [js "Severity: High"] (js "- rest")).
  right. exists Severity. split; vm_compute; reflexivity.
Defined.


(** The whole path of the specification's example: 2000 bytes recorded
    as [audio/webm;codecs=opus], the transcript [I have a headache], and
    a reply: the transcript is dispatched to [/chat], the reply is logged,
    the stream is released and the component is neither listening nor
    transcribing. *)
Example voice_to_reply :
  let w :=
    run app0
      [Start; MicSettles (Granted (js "audio/webm;codecs=opus"));
       Stop (repeat Byte.x00 2000);
       TranscribeSettles (TranscribeJson (Some (js "I have a headache")) None);
       ChatSettles (ChatJson (Some (js "Severity: Low")))] in
  outbox w
  = [PostTranscribe (repeat Byte.x00 2000) (js "audio/webm;codecs=opus");
     PostChat (js "I have a headache")]
  /\ messages w
     = [Message User (js "I have a headache"); Message Bot (js "Severity: Low")]
  /\ streams w = [1%nat]
  /\ isListening w = false /\ isTranscribing w = false
  /\ voiceError w = None.
Proof. vm_compute. repeat split. Qed.

(** * Further properties *)

(** ** Trimming and splitting *)

Section TrimFacts.

Implicit Types (s : jsstring) (p : N -> bool).

Lemma dropWhile_stable p s : stopsRun p s -> dropWhile p s = s.
Proof. destruct s as [|c s]; simpl; [done|]. now intros ->. Qed.

Lemma dropWhile_snoc p s (c : N) :
  p c = false -> dropWhile p (s ++ [c]) = dropWhile p s ++ [c].
Proof.
  intros Hc. induction s as [|x s IH]; simpl.
  - now rewrite Hc.
  - now destruct (p x).
Qed.

Lemma dropWhile_elem p s (x : N) : x ∈ dropWhile p s -> x ∈ s.
Proof.
  induction s as [|c s IH]; simpl; [done|].
  destruct (p c); [|done]. intros Hx. right. auto.
Qed.

(** What [trim] returns is empty, or starts with a code unit that is not
    white space and is cut at its end the same way. *)
Lemma trim_shape s :
  trim s = []
  \/ exists c t, isWhiteSpace c = false
                 /\ trim s = c :: rev (dropWhile isWhiteSpace (rev t)).
Proof.
  unfold trim, trimStart, trimEnd.
  pose proof (stopsRun_dropWhile isWhiteSpace s) as Hstop.
  destruct (dropWhile isWhiteSpace s) as [|c t]; [now left|].
  right. exists c, t. split; [exact Hstop|].
  simpl. rewrite dropWhile_snoc by exact Hstop.
  now rewrite rev_app_distr.
Qed.

Lemma trim_idem s : trim (trim s) = trim s.
Proof.
  destruct (trim_shape s) as [->|(c & t & Hc & ->)]; [done|].
  unfold trim, trimStart, trimEnd. simpl. rewrite Hc. simpl.
  rewrite rev_involutive, dropWhile_snoc by exact Hc.
  now rewrite dropWhile_idem, rev_app_distr.
Qed.

Lemma rev_elem s (x : N) : x ∈ rev s <-> x ∈ s.
Proof. now rewrite !list_elem_of_In, <- in_rev. Qed.

Lemma trim_elem s (x : N) : x ∈ trim s -> x ∈ s.
Proof.
  unfold trim, trimStart, trimEnd. intros Hx.
  rewrite rev_elem in Hx. apply dropWhile_elem in Hx.
  rewrite rev_elem in Hx. now apply dropWhile_elem in Hx.
Qed.

Lemma split_no_sep (sep : N) s : Forall (fun w => sep ∉ w) (split sep s).
Proof.
  induction s as [|c s IH]; simpl.
  - repeat constructor. apply not_elem_of_nil.
  - destruct (N.eqb_spec c sep) as [->|Hne].
    + constructor; [apply not_elem_of_nil|done].
    + destruct (split sep s) as [|w ws]; [repeat constructor|].
      * apply not_elem_of_cons. split; [congruence|apply not_elem_of_nil].
      * apply Forall_cons in IH as [Hw Hws]. constructor; [|done].
        apply not_elem_of_cons. split; [congruence|done].
Qed.

(** The lines the parser scans are not empty, are trimmed, and hold no
    line feed. *)
Theorem lines_clean (text : jsstring) :
  Forall (fun l => l <> [] /\ trim l = l /\ 10 ∉ l) (lines text).
Proof.
  unfold lines. apply Forall_forall. intros l Hl.
  apply list_elem_of_In, filter_In in Hl as [Hl Htruthy].
  apply list_elem_of_In, list_elem_of_fmap in Hl as (raw & -> & Hraw).
  split; [now destruct (trim raw)|]. split; [apply trim_idem|].
  intros Hnl. apply trim_elem in Hnl.
  pose proof (split_no_sep 10 text) as Hsplit.
  rewrite Forall_forall in Hsplit. now apply (Hsplit raw).
Qed.

End TrimFacts.

(** ** The endpoints *)

Section EndpointFacts.



(** The statuses of [/chat]: 400 with a fixed text when the symptoms are
    missing or empty; 500 with a fixed text when the provider throws,
    whatever its message; and else 200 with the provider's text as it is,
    untrimmed and possibly empty. *)
Theorem chat_statuses (gemini : jsstring -> outcome) (symptoms : option jsstring) :
  (truthyOpt symptoms = false ->
   chat gemini symptoms = Response 400 (ErrorBody (js "Symptoms are required")))
  /\ (forall s message,
        symptoms = Some s -> s <> [] -> gemini s = Throws message ->
        chat gemini symptoms
        = Response 500 (ErrorBody (js "Failed to get response from Gemini")))
  /\ (forall s reply,
        symptoms = Some s -> s <> [] -> gemini s = Returns reply ->
        chat gemini symptoms = Response 200 (ReplyBody reply)).
Proof.
  unfold chat. split; [|split].
  - destruct symptoms as [[|c s]|]; simpl; [done|discriminate|done].
  - intros s message -> Hs Hg. destruct s as [|c s]; [done|]. simpl.
    now rewrite Hg.
  - intros s reply -> Hs Hg. destruct s as [|c s]; [done|]. simpl.
    now rewrite Hg.
Qed.

Lemma chat_statuses_witness :
  chat (fun _ => Throws (Some (js "429 quota exceeded"))) (Some [])
  = Response 400 (ErrorBody (js "Symptoms are required"))
  /\ chat (fun _ => Throws (Some (js "429 quota exceeded"))) (Some (js "cough"))
     = Response 500 (ErrorBody (js "Failed to get response from Gemini"))
  /\ chat (fun _ => Returns []) (Some (js "cough")) = Response 200 (ReplyBody []).
Proof.
  split; [|split].
  - apply (proj1 (chat_statuses (fun _ => Throws (Some (js "429 quota exceeded")))
                    (Some []))).
    reflexivity.
  - apply (proj1 (proj2 (chat_statuses
                           (fun _ => Throws (Some (js "429 quota exceeded")))
                           (Some (js "cough"))))
             (js "cough") (Some (js "429 quota exceeded")));
      solve [reflexivity | discriminate].
  - apply (proj2 (proj2 (chat_statuses (fun _ => Returns []) (Some (js "cough"))))
             (js "cough") []);
      solve [reflexivity | discriminate].
Defined.

(** What [/transcribe] answers: a transcript that is trimmed and not
    empty, with status 200, or an error text that is not empty, with
    another status. *)
Lemma transcribe_response (gemini : jsstring -> jsstring -> outcome)
    (b : transcribeBody) :
  (exists t, t <> [] /\ trim t = t
             /\ transcribe gemini b = Response 200 (TranscriptBody t))
  \/ (exists st e, e <> [] /\ st <> 200%nat
                   /\ transcribe gemini b = Response st (ErrorBody e)).
Proof.
  unfold transcribe.
  destruct (audio b) as [[|x a]|]; simpl.
  - right. exists 400%nat. eexists. split; [|split; [|reflexivity]]; [done|lia].
  - unfold transcribeReply.
    destruct (gemini (safeMimeType (mimeType b)) (x :: a)) as [text|message].
    + destruct (trim text) as [|c t] eqn:Htext; simpl.
      * right. exists 422%nat. eexists.
        split; [|split; [|reflexivity]]; [done|lia].
      * left. exists (c :: t). rewrite <- Htext.
        split; [now rewrite Htext|]. split; [apply trim_idem|reflexivity].
    + right. exists 500%nat. eexists. split; [|split; [|reflexivity]]; [|lia].
      destruct message as [[|c m]|]; done.
  - right. exists 400%nat. eexists. split; [|split; [|reflexivity]]; [done|lia].
Qed.

(** The client and the handler of [/transcribe] together, for a request
    the handler answers (one whose body the JSON middleware let
    through) and a component that is mounted when the answer arrives:
    the client leaves the transcribing state, and either logs and
    dispatches the transcript the handler returned, or shows the
    handler's own error text and not its fallback text. *)
Theorem transcription_shown (gemini : jsstring -> jsstring -> outcome)
    (b : transcribeBody) (w : app) (p : nat) :
  mounted w = true ->
  pendingTranscribe w = S p ->
  isTranscribing
    (step w (TranscribeSettles (transcribeData (transcribe gemini b))))
  = false
  /\ ((exists t,
         trim t <> []
         /\ transcribe gemini b = Response 200 (TranscriptBody t)
         /\ messages
              (step w (TranscribeSettles (transcribeData (transcribe gemini b))))
            = messages w ++ [Message User t]
         /\ outbox
              (step w (TranscribeSettles (transcribeData (transcribe gemini b))))
            = outbox w ++ [PostChat t]
         /\ voiceError
              (step w (TranscribeSettles (transcribeData (transcribe gemini b))))
            = voiceError w)
      \/ (exists e,
            e <> [] /\ body (transcribe gemini b) = ErrorBody e
            /\ status (transcribe gemini b) <> 200%nat
            /\ voiceError
                 (step w
                    (TranscribeSettles (transcribeData (transcribe gemini b))))
               = Some e
            /\ messages
                 (step w
                    (TranscribeSettles (transcribeData (transcribe gemini b))))
               = messages w
            /\ outbox
                 (step w
                    (TranscribeSettles (transcribeData (transcribe gemini b))))
               = outbox w)).
Proof.
  intros Hm Hp. rewrite (step_mounted _ _ Hm). simpl react. rewrite Hp.
  destruct (transcribe_response gemini b)
    as [(t & Ht & Htrim & ->)|(st & e & He & Hst & ->)].
  - unfold transcribeData. simpl body. cbv iota.
    unfold transcribeSettles.
    destruct t as [|c t]; [done|]. simpl truthy. cbv iota.
    unfold sendMessage. simpl dispatched. rewrite Htrim. simpl.
    split; [reflexivity|]. left. exists (c :: t).
    rewrite Htrim. repeat split; done.
  - split; [reflexivity|]. right. exists e.
    destruct e as [|c e]; [done|]. simpl. repeat split; done.
Qed.

(** The client and the handler of [/chat] together, for a request the
    handler answers and a component that is mounted when the answer
    arrives: one bot message is logged, and it is not empty; when the
    handler answers with an error, the message is the client's fixed
    text, not the handler's error text; a reply that is not empty is
    logged as it is. *)
Theorem reply_shown (gemini : jsstring -> outcome) (symptoms : option jsstring)
    (w : app) (p : nat) :
  mounted w = true ->
  pendingChat w = S p ->
  exists t,
    t <> []
    /\ messages (step w (ChatSettles (chatData (chat gemini symptoms))))
       = messages w ++ [Message Bot t]
    /\ (status (chat gemini symptoms) <> 200%nat ->
        t = js "No reply from server.")
    /\ (forall reply,
          chat gemini symptoms = Response 200 (ReplyBody reply) ->
          reply <> [] -> t = reply).
Proof.
  intros Hm Hp. rewrite (step_mounted _ _ Hm). simpl react. rewrite Hp.
  unfold chat.
  assert (Hfix : js "No reply from server." <> []) by discriminate.
  destruct symptoms as [[|c s]|]; simpl.
  - exists (js "No reply from server."). repeat split; [done|discriminate].
  - destruct (gemini (c :: s)) as [reply|message]; simpl.
    + destruct reply as [|r reply]; simpl.
      * exists (js "No reply from server."). repeat split; [done|].
        intros reply' [= <-]. done.
      * exists (r :: reply). repeat split; [done|done|].
        now intros reply' [= <-].
    + exists (js "No reply from server."). repeat split; [done|discriminate].
  - exists (js "No reply from server."). repeat split; [done|discriminate].
Qed.

End EndpointFacts.

Lemma transcription_shown_witness :
  let w := setPendingTranscribe 1 (setIsTranscribing true app0) in
  let r :=
    transcribe silentProvider
      (TranscribeBody (Some (js "UklGRg")) (Some (js "audio/webm"))) in
  isTranscribing (step w (TranscribeSettles (transcribeData r))) = false
  /\ ((exists t,
         trim t <> []
         /\ r = Response 200 (TranscriptBody t)
         /\ messages (step w (TranscribeSettles (transcribeData r)))
            = messages w ++ [Message User t]
         /\ outbox (step w (TranscribeSettles (transcribeData r)))
            = outbox w ++ [PostChat t]
         /\ voiceError (step w (TranscribeSettles (transcribeData r)))
            = voiceError w)
      \/ (exists e,
            e <> [] /\ body r = ErrorBody e
            /\ status r <> 200%nat
            /\ voiceError (step w (TranscribeSettles (transcribeData r)))
               = Some e
            /\ messages (step w (TranscribeSettles (transcribeData r)))
               = messages w
            /\ outbox (step w (TranscribeSettles (transcribeData r)))
               = outbox w)).
Proof.
  cbv zeta.
  apply (transcription_shown silentProvider
           (TranscribeBody (Some (js "UklGRg")) (Some (js "audio/webm")))
           (setPendingTranscribe 1 (setIsTranscribing true app0)) 0);
    reflexivity.
Defined.

Lemma reply_shown_witness :
  exists t,
    t <> []
    /\ messages
         (step (sendMessage (Some (js "cough")) app0)
            (ChatSettles (chatData (chat (fun _ => Throws None) (Some (js "cough"))))))
       = messages (sendMessage (Some (js "cough")) app0) ++ [Message Bot t]
    /\ (status (chat (fun _ => Throws None) (Some (js "cough"))) <> 200%nat ->
        t = js "No reply from server.")
    /\ (forall reply,
          chat (fun _ => Throws None) (Some (js "cough"))
          = Response 200 (ReplyBody reply) ->
          reply <> [] -> t = reply).
Proof.
  apply (reply_shown (fun _ => Throws None) (Some (js "cough"))
           (sendMessage (Some (js "cough")) app0) 0);
    reflexivity.
Defined.

(** ** The log and the requests, along every run *)

Section LogFacts.

Local Open Scope nat_scope.

Implicit Types (w : app) (ms : list message) (qs : list request).

Lemma tidy_user ms qs chats transcribing transcribes (t : jsstring) :
  trim t <> [] ->
  tidy ms qs chats transcribing transcribes ->
  tidy (ms ++ [Message User t]) (qs ++ [PostChat t]) (S chats) transcribing
    transcribes.
Proof.
  intros Ht (Hms & Hqs & Heq & Hcount & Htr). unfold tidy, userTexts, botTexts,
    chatRequests in *.
  rewrite !omap_app, !length_app. simpl. rewrite Heq.
  repeat split; try done.
  - apply Forall_app. split; [done|]. now constructor.
  - apply Forall_app. split; [done|]. now constructor.
  - lia.
Qed.

Lemma tidy_bot ms qs chats transcribing transcribes (t : jsstring) :
  t <> [] ->
  tidy ms qs (S chats) transcribing transcribes ->
  tidy (ms ++ [Message Bot t]) qs chats transcribing transcribes.
Proof.
  intros Ht (Hms & Hqs & Heq & Hcount & Htr). unfold tidy, userTexts, botTexts,
    chatRequests in *.
  rewrite !omap_app, !length_app. simpl. rewrite app_nil_r.
  repeat split; try done.
  - apply Forall_app. split; [done|]. now constructor.
  - lia.
Qed.

Lemma tidy_sent ms qs chats transcribing transcribes (b : blob) (mime : jsstring) :
  500 <= length b -> mime <> [] ->
  tidy ms qs chats transcribing transcribes ->
  tidy ms (qs ++ [PostTranscribe b mime]) chats true (S transcribes).
Proof.
  intros Hb Hmime (Hms & Hqs & Heq & Hcount & Htr). unfold tidy, chatRequests in *.
  rewrite omap_app. simpl. rewrite app_nil_r.
  repeat split; try done; [|lia].
  apply Forall_app. split; [done|]. now constructor.
Qed.

Lemma tidy_answered ms qs chats transcribing transcribes :
  tidy ms qs chats transcribing (S transcribes) ->
  tidy ms qs chats false transcribes.
Proof. intros (Hms & Hqs & Heq & Hcount & Htr). repeat split; done. Qed.

Lemma sendMessage_settled (t : option jsstring) w :
  settled w ->
  settled (sendMessage t w)
  /\ messages w `prefix_of` messages (sendMessage t w).
Proof.
  intros Hw. unfold sendMessage.
  destruct (trim (dispatched t w)) as [|c rest] eqn:Htext; simpl.
  - split; [done|]. reflexivity.
  - split; [|now apply prefix_app_r].
    apply tidy_user; [|exact Hw]. now rewrite Htext.
Qed.

Lemma onstop_settled (id : nat) (mime : jsstring) w :
  settled w ->
  settled (onstop id mime w) /\ messages (onstop id mime w) = messages w.
Proof.
  intros Hw. unfold onstop.
  assert (Hsame : forall w0, settled w0 -> settled (stopTracks id w0)
                             /\ messages (stopTracks id w0) = messages w0
                             /\ audioChunksRef (stopTracks id w0)
                                = audioChunksRef w0).
  { intros w0 H0. unfold stopTracks. now destruct (streams w0 !! id). }
  destruct (Hsame w Hw) as (Hs & Hm & Hc). rewrite Hc.
  destruct (Nat.ltb_spec (length (newBlob (audioChunksRef w))) 500) as [_|Hbig].
  - split; [exact Hs|exact Hm].
  - split; [|exact Hm].
    unfold settled in *. simpl.
    eapply tidy_sent; [done| |exact Hs].
    destruct mime; discriminate.
Qed.

Lemma stopListening_settled (data : blob) w :
  settled w ->
  settled (stopListening data w)
  /\ messages (stopListening data w) = messages w.
Proof.
  intros Hw. unfold stopListening.
  destruct (mediaRecorderRef w) as [id|]; [|done].
  destruct (negb (isListening w)); [done|].
  unfold recorderStop. simpl.
  destruct (recorders w !! id) as [[mime [|]]|]; try done.
  match goal with |- settled (onstop id mime ?x) /\ _ => set (w1 := x) end.
  assert (H1 : settled w1 /\ messages w1 = messages w).
  { unfold w1, ondataavailable. now destruct (0 <? length data). }
  destruct (onstop_settled id mime w1 (proj1 H1)) as [Hs Hm].
  split; [exact Hs|]. rewrite Hm. apply H1.
Qed.

Lemma startListening_settled w :
  settled w ->
  settled (startListening w) /\ messages (startListening w) = messages w.
Proof.
  intros Hw. unfold startListening.
  now destruct (isListening w || isTranscribing w).
Qed.

Lemma react_settled w (e : event) :
  settled w ->
  settled (react w e) /\ messages w `prefix_of` messages (react w e).
Proof.
  intros Hw.
  assert (Hkeep : forall w', settled w' /\ messages w' = messages w ->
                             settled w' /\ messages w `prefix_of` messages w').
  { intros w' [Hs ->]. split; [done|reflexivity]. }
  destruct e as [v|t| |d|d|r|r|r| ]; simpl.
  - destruct (mounted w); now apply Hkeep.
  - destruct (mounted w); [now apply sendMessage_settled|now apply Hkeep].
  - destruct (mounted w); apply Hkeep; [now apply startListening_settled|done].
  - destruct (mounted w); apply Hkeep; [now apply stopListening_settled|done].
  - destruct (mounted w); apply Hkeep; [|done]. unfold toggleListening.
    destruct (isListening w);
      [now apply stopListening_settled|now apply startListening_settled].
  - destruct (pendingMic w) as [|p]; apply Hkeep; [done|].
    destruct r as [mime|name]; simpl; [done|].
    now destruct (jsEq name _ || jsEq name _).
  - destruct (pendingTranscribe w) as [|p] eqn:Hp; [now apply Hkeep|].
    assert (Hdone : settled (setIsTranscribing false (setPendingTranscribe p w))).
    { unfold settled in *. simpl. rewrite Hp in Hw. now apply tidy_answered in Hw. }
    destruct r as [[t|] err|]; simpl.
    + destruct (truthy t).
      * apply (sendMessage_settled (Some t)) in Hdone. exact Hdone.
      * split; [exact Hdone|reflexivity].
    + split; [exact Hdone|reflexivity].
    + split; [exact Hdone|reflexivity].
  - destruct (pendingChat w) as [|p] eqn:Hp; [now apply Hkeep|].
    unfold settled in Hw. rewrite Hp in Hw.
    destruct r as [reply|]; simpl.
    + split; [|now apply prefix_app_r].
      apply tidy_bot; [|exact Hw]. now destruct reply as [[|c reply]|].
    + split; [|now apply prefix_app_r].
      apply tidy_bot; [|exact Hw]. discriminate.
  - split; [exact Hw|reflexivity].
Qed.

(** The requests that leave after the unmounting are sound too: the
    code that sends them runs as before. *)
Lemma unmounted_outbox w (e : event) :
  mounted w = false ->
  Forall sound (outbox w) ->
  Forall sound (outbox (react w e)).
Proof.
  intros Hm Hq.
  destruct e as [v|t| |d|d|r|r|r| ]; simpl; rewrite ?Hm; try done.
  - destruct (pendingMic w) as [|p]; [done|].
    destruct r as [mime|name]; simpl; [done|].
    now destruct (jsEq name _ || jsEq name _).
  - destruct (pendingTranscribe w) as [|p]; [done|].
    destruct r as [[t|] err|]; simpl; try done.
    destruct (truthy t); [|done].
    unfold sendMessage. simpl dispatched.
    destruct (trim t) as [|c rest] eqn:Ht; simpl; [done|].
    apply Forall_app. split; [done|]. constructor; [|constructor].
    simpl. now rewrite Ht.
  - destruct (pendingChat w) as [|p]; [done|]. now destruct r.
Qed.

Lemma step_kept w (e : event) :
  kept w -> kept (step w e) /\ messages w `prefix_of` messages (step w e).
Proof.
  intros (Hms & Hqs & Hlive). unfold step.
  destruct (mounted w) eqn:Hm.
  - destruct (react_settled w e (Hlive eq_refl)) as [Hs Hp].
    split; [|exact Hp].
    split; [apply Hs|]. split; [apply Hs|]. now intros _.
  - destruct (unmounted_react w e Hm) as [Hm' _].
    split; [|reflexivity].
    split; [exact Hms|]. split; [now apply unmounted_outbox|].
    simpl. rewrite Hm'. discriminate.
Qed.

Lemma run_kept (es : list event) : forall w,
  kept w -> kept (run w es) /\ messages w `prefix_of` messages (run w es).
Proof.
  induction es as [|e es IH]; intros w Hw; simpl.
  - split; [done|reflexivity].
  - destruct (step_kept w e Hw) as [Hs Hp].
    destruct (IH _ Hs) as [Hs' Hp']. split; [done|].
    now transitivity (messages (step w e)).
Qed.

Lemma app0_kept : kept app0.
Proof.
  split; [constructor|]. split; [constructor|]. intros _.
  repeat split; simpl; try done; constructor.
Qed.

(** The message log only grows at its end: what is logged is never
    removed, changed or reordered, whatever happens next. *)
Theorem messages_append_only (es1 es2 : list event) :
  messages (run app0 es1) `prefix_of` messages (run app0 (es1 ++ es2)).
Proof.
  rewrite run_app. apply run_kept. apply run_kept, app0_kept.
Qed.

(** No blank message is ever logged: a user's message has a text that
    does not trim to nothing, and a bot's message a text that is not
    empty. *)
Theorem messages_shown (es : list event) :
  Forall shown (messages (run app0 es)).
Proof. destruct (run_kept es app0 app0_kept) as [(H & _) _]. exact H. Qed.

(** Every request that leaves is sound: a [/chat] request carries
    symptoms that do not trim to nothing, and a [/transcribe] request a
    blob of 500 bytes or more and a mime type that is not empty. *)
Theorem requests_sound (es : list event) :
  Forall sound (outbox (run app0 es)).
Proof. destruct (run_kept es app0 app0_kept) as [(_ & H & _) _]. exact H. Qed.

(** While the component is mounted, the [/chat] requests are the user's
    messages, text for text and in the same order; and each user's
    message has got its one bot message or its request is still
    outstanding.  (Once it is unmounted, a transcript that arrives is
    still sent to [/chat] but no longer logged, and a reply that arrives
    is dropped.) *)
Theorem every_message_dispatched (es : list event) :
  mounted (run app0 es) = true ->
  chatRequests (outbox (run app0 es)) = userTexts (messages (run app0 es))
  /\ length (botTexts (messages (run app0 es))) + pendingChat (run app0 es)
     = length (userTexts (messages (run app0 es))).
Proof.
  intros Hm.
  destruct (run_kept es app0 app0_kept) as [(_ & _ & Hlive) _].
  destruct (Hlive Hm) as (_ & _ & Heq & Hcount & _). auto.
Qed.

Lemma every_message_dispatched_witness :
  chatRequests
    (outbox (run app0 [Send (Some (js "cough")); ChatSettles ChatThrows;
                       Send (Some (js "fever"))]))
  = userTexts
      (messages (run app0 [Send (Some (js "cough")); ChatSettles ChatThrows;
                           Send (Some (js "fever"))]))
  /\ length
       (botTexts
          (messages (run app0 [Send (Some (js "cough")); ChatSettles ChatThrows;
                               Send (Some (js "fever"))])))
     + pendingChat (run app0 [Send (Some (js "cough")); ChatSettles ChatThrows;
                              Send (Some (js "fever"))])
     = length
         (userTexts
            (messages (run app0 [Send (Some (js "cough")); ChatSettles ChatThrows;
                                 Send (Some (js "fever"))]))).
Proof.
  apply (every_message_dispatched
           [Send (Some (js "cough")); ChatSettles ChatThrows;
            Send (Some (js "fever"))]).
  vm_compute. reflexivity.
Defined.

(** While the component is mounted, it is in the transcribing state
    only while a [/transcribe] request is outstanding, so the answer to
    that request, or its failure, brings it out of that state. *)
Theorem transcribing_awaits (es : list event) :
  mounted (run app0 es) = true ->
  isTranscribing (run app0 es) = true -> 0 < pendingTranscribe (run app0 es).
Proof.
  intros Hm.
  destruct (run_kept es app0 app0_kept) as [(_ & _ & Hlive) _].
  destruct (Hlive Hm) as (_ & _ & _ & _ & Htr). exact Htr.
Qed.

Lemma transcribing_awaits_witness :
  0 < pendingTranscribe
        (run app0 [Start; MicSettles (Granted (js "audio/webm"));
                   Stop (repeat Byte.x00 600)]).
Proof.
  apply (transcribing_awaits [Start; MicSettles (Granted (js "audio/webm"));
                              Stop (repeat Byte.x00 600)]).
  - vm_compute. reflexivity.
  - vm_compute. reflexivity.
Defined.

(** The [/chat] endpoint never refuses what the client sends it as
    missing symptoms. *)
Theorem dispatch_accepted (es : list event) (s : jsstring)
    (gemini : jsstring -> outcome) :
  PostChat s ∈ outbox (run app0 es) ->
  status (chat gemini (Some s)) <> 400.
Proof.
  intros Hin.
  destruct (run_kept es app0 app0_kept) as [(_ & Hsound & _) _].
  rewrite Forall_forall in Hsound. specialize (Hsound _ Hin). simpl in Hsound.
  unfold chat. destruct s as [|c s]; [done|]. simpl.
  destruct (gemini (c :: s)); simpl; lia.
Qed.

Lemma dispatch_accepted_witness :
  status (chat (fun _ => Throws None) (Some (js " cough "))) <> 400.
Proof.
  apply (dispatch_accepted [Send (Some (js " cough "))] (js " cough ")).
  vm_compute. apply list_elem_of_here.
Defined.

End LogFacts.

(** ** The microphone, when calls do not overlap *)

Section SessionFacts.

Local Open Scope nat_scope.

Implicit Types (w : app).

Lemma held_after_release (ss : list nat) : forall id,
  ss !! id = Some 0 ->
  length (List.filter isHeld (<[id := 1]> ss)) + 1
  = length (List.filter isHeld ss).
Proof.
  induction ss as [|n ss IH]; intros [|id] Hid; try done.
  - injection Hid as ->. simpl. lia.
  - specialize (IH id Hid). destruct n; simpl in *; lia.
Qed.

Lemma held_after_acquire (ss : list nat) :
  length (List.filter isHeld (ss ++ [0]))
  = S (length (List.filter isHeld ss)).
Proof. rewrite List.filter_app, length_app. simpl. lia. Qed.

Lemma recorderStop_mic (id : nat) (data : blob) w (mime : jsstring) (n : nat) :
  recorders w !! id = Some (Recorder mime true) ->
  streams w !! id = Some n ->
  micView (recorderStop id data w)
  = (<[id := S n]> (streams w), <[id := Recorder mime false]> (recorders w),
     mediaRecorderRef w, isListening w, pendingMic w).
Proof.
  intros Hrec Hs. unfold recorderStop. rewrite Hrec.
  unfold onstop, stopTracks, ondataavailable, micView.
  destruct (0 <? length data); simpl; rewrite Hs; simpl;
    repeat match goal with
           | |- context [if ?b then _ else _] => destruct b
           | |- context [match ?x with [] => _ | _ :: _ => _ end] => destruct x
           end; reflexivity.
Qed.

Lemma sendMessage_mic (t : option jsstring) w :
  micView (sendMessage t w) = micView w.
Proof.
  unfold sendMessage. now destruct (negb (truthy (trim (dispatched t w)))).
Qed.

Lemma startListening_poised w :
  poised w -> pendingMic (startListening w) <= 1 -> poised (startListening w).
Proof.
  intros Hw Hle. unfold startListening in *.
  destruct (isListening w || isTranscribing w) eqn:Hguard; [exact Hw|].
  apply orb_false_iff in Hguard as [Hl _].
  unfold poised, micView, calm in *. simpl in *. rewrite Hl in *.
  destruct Hw as (Hacc & _ & Hheld). auto.
Qed.

Lemma stopListening_poised (data : blob) w :
  poised w -> poised (stopListening data w).
Proof.
  intros Hw. unfold stopListening.
  destruct (mediaRecorderRef w) as [id|] eqn:Href; [|done].
  destruct (isListening w) eqn:Hl; simpl; [|done].
  unfold poised, micView, calm in Hw. rewrite Hl, Href in Hw.
  destruct Hw as (Hacc & Hp & Hp0 & Hheld & id' & mime & [= <-] & Hrec).
  destruct (Forall2_lookup_l _ _ _ _ _ Hacc Hrec) as (n & Hn & Hrn).
  unfold accounted in Hrn. simpl in Hrn. subst n.
  unfold poised.
  rewrite (recorderStop_mic id data (setIsListening false w) mime 0 Hrec Hn).
  simpl. split; [|split; [lia|]].
  - apply Forall2_insert; [done|reflexivity].
  - pose proof (held_after_release _ _ Hn). lia.
Qed.

Lemma micSettles_poised (r : micResult) w (p : nat) :
  poised w -> pendingMic w = S p -> poised (micSettles r (setPendingMic p w)).
Proof.
  unfold poised, micView, calm. intros (Hacc & Hle & Hstate) Hp.
  rewrite Hp in Hle, Hstate.
  assert (p = 0) as -> by lia.
  destruct (isListening w) eqn:Hl; [destruct Hstate as [? _]; lia|].
  destruct r as [mime|name]; simpl.
  - split; [|split; [lia|split; [done|split]]].
    + apply Forall2_app; [done|]. now constructor.
    + rewrite held_after_acquire. lia.
    + exists (length (streams w)), mime. split; [done|].
      rewrite <- (Forall2_length _ _ _ Hacc). apply list_lookup_middle. done.
  - destruct (jsEq name _ || jsEq name _); simpl; rewrite Hl; auto.
Qed.

Lemma react_poised w (e : event) :
  poised w -> pendingMic (react w e) <= 1 -> poised (react w e).
Proof.
  intros Hw Hle.
  destruct e as [v|t| |d|d|r|r|r| ]; simpl in *.
  - now destruct (mounted w).
  - destruct (mounted w); [|done]. unfold poised. now rewrite sendMessage_mic.
  - destruct (mounted w); [|done]. now apply startListening_poised.
  - destruct (mounted w); [|done]. now apply stopListening_poised.
  - destruct (mounted w); [|done]. unfold toggleListening in *.
    destruct (isListening w);
      [now apply stopListening_poised|now apply startListening_poised].
  - destruct (pendingMic w) as [|p] eqn:Hp; [done|].
    now apply micSettles_poised.
  - destruct (pendingTranscribe w) as [|p]; [done|].
    destruct r as [[t|] err|]; simpl; try exact Hw.
    destruct (truthy t); [|exact Hw].
    unfold poised. rewrite sendMessage_mic. exact Hw.
  - destruct (pendingChat w) as [|p]; [done|].
    destruct r; exact Hw.
  - exact Hw.
Qed.

Lemma unmounted_stays (es : list event) : forall w,
  mounted w = false -> mounted (run w es) = false.
Proof.
  induction es as [|e es IH]; intros w Hm; simpl; [done|].
  apply IH. now apply unmounted_step.
Qed.

Lemma mounted_before (es : list event) w :
  mounted (run w es) = true -> mounted w = true.
Proof.
  intros Hm. destruct (mounted w) eqn:Hw; [done|].
  now rewrite (unmounted_stays es w Hw) in Hm.
Qed.

Lemma run_poised (es : list event) : forall w,
  poised w -> unhurried w es = true -> mounted (run w es) = true ->
  poised (run w es).
Proof.
  induction es as [|e es IH]; intros w Hw Hes Hm; simpl in *; [done|].
  apply andb_true_iff in Hes as [Hle Hes]. apply Nat.leb_le in Hle.
  assert (Hlive : mounted w = true).
  { apply (mounted_before [e] w). simpl. now apply (mounted_before es). }
  rewrite (step_mounted w e Hlive) in *.
  apply IH; [|done|done]. now apply react_poised.
Qed.

(** While the component is mounted, and when no call of
    [startListening] goes through while [getUserMedia] is still to settle
    for an earlier one, the microphone is held exactly while the
    component is listening: one stream then, and none once the recording
    was stopped, whatever the size of the blob and whatever the
    transcription comes to. *)
Theorem held_while_listening (es : list event) :
  unhurried app0 es = true ->
  mounted (run app0 es) = true ->
  heldStreams (run app0 es) = if isListening (run app0 es) then 1 else 0.
Proof.
  intros Hes Hm.
  assert (H0 : poised app0).
  { unfold poised, micView, calm. simpl. repeat split; [constructor|lia]. }
  pose proof (run_poised es app0 H0 Hes Hm) as Hrun.
  unfold poised, micView, calm in Hrun. unfold heldStreams.
  destruct (isListening (run app0 es)).
  - now destruct Hrun as (_ & _ & _ & Hheld & _).
  - now destruct Hrun as (_ & _ & Hheld).
Qed.

Lemma held_while_listening_witness :
  heldStreams
    (run app0
       [Start; MicSettles (Granted (js "audio/webm")); Stop (repeat Byte.x00 40);
        Toggle []; MicSettles (Granted (js "audio/webm"))])
  = if isListening
         (run app0
            [Start; MicSettles (Granted (js "audio/webm"));
             Stop (repeat Byte.x00 40); Toggle [];
             MicSettles (Granted (js "audio/webm"))])
    then 1 else 0.
Proof.
  apply (held_while_listening
           [Start; MicSettles (Granted (js "audio/webm"));
            Stop (repeat Byte.x00 40); Toggle [];
            MicSettles (Granted (js "audio/webm"))]).
  - vm_compute. reflexivity.
  - vm_compute. reflexivity.
Defined.

(** No stream has its tracks stopped twice, on any run. *)
Theorem never_released_twice (es : list event) :
  Forall (fun n => n <= 1) (streams (run app0 es)).
Proof.
  assert (Hacc : Forall2 accounted (recorders (run app0 es))
                   (streams (run app0 es))).
  { apply run_accounted. constructor. }
  apply Forall_forall. intros n Hn.
  apply list_elem_of_lookup in Hn as [id Hid].
  destruct (Forall2_lookup_r _ _ _ _ _ Hacc Hid) as (r & _ & Hr).
  unfold accounted in Hr. destruct (recording r); lia.
Qed.

End SessionFacts.

(** ** The reply parser: what the result holds *)

Section ResultFacts.

Implicit Types (st : scan) (line : jsstring) (k : key).

(** The three things a line can do to the scan. *)
Lemma scanLine_shape st line :
  (exists k, headerOf line = Some k
             /\ scanLine st line
                = Scan (<[k := headerValue k line]> (sections st)) (Some k))
  \/ (headerOf line = None
      /\ (scanLine st line = st
          \/ exists x, scanLine st line = push st (trim x))).
Proof.
  unfold scanLine. destruct (headerOf line) as [k|]; [left; eauto|].
  right. split; [done|]. case_ifs; eauto.
Qed.

Lemma push_is_Some st (item : jsstring) k :
  is_Some (sections (push st item) !! k) <-> is_Some (sections st !! k).
Proof.
  rewrite push_sections.
  destruct (currentKey st) as [k'|]; [|done].
  destruct (sections st !! k') as [[s|items]|] eqn:Hk'; try done.
  case_decide; [|done]. subst k'. rewrite Hk'. split; eauto.
Qed.

Lemma scanLine_is_Some st line k :
  is_Some (sections (scanLine st line) !! k)
  <-> is_Some (sections st !! k) \/ headerOf line = Some k.
Proof.
  destruct (scanLine_shape st line) as [(k' & Hh & ->)|(Hh & [->|(x & ->)])];
    rewrite Hh; simpl.
  - rewrite lookup_insert. case_decide.
    + subst. split; eauto.
    + split; [auto|]. intros [?|[= ?]]; done.
  - split; [auto|]. now intros [?|?].
  - rewrite push_is_Some. split; [auto|]. now intros [?|?].
Qed.

Lemma scanLines_is_Some (ls : list jsstring) k : forall st,
  is_Some (sections (scanLines st ls) !! k)
  <-> is_Some (sections st !! k) \/ Exists (fun l => headerOf l = Some k) ls.
Proof.
  induction ls as [|l ls IH]; intros st; simpl.
  - rewrite Exists_nil. tauto.
  - rewrite IH, scanLine_is_Some, Exists_cons. tauto.
Qed.

(** A section is in the result exactly when some line of the reply is a
    header of its kind: bullets never make a section, and a header always
    does, even with nothing after it. *)
Theorem sections_from_headers (text : jsstring) (k : key) :
  is_Some (parseSections text !! k)
  <-> Exists (fun l => headerOf l = Some k) (lines text).
Proof.
  unfold parseSections. rewrite scanLines_is_Some. simpl.
  rewrite lookup_empty. split; [|auto].
  intros [[v Hv]|H]; done.
Qed.

(** In the result a list section holds an array and a scalar section a
    string, for every reply: what is rendered with [.map] is an array. *)
Theorem sections_typed (text : jsstring) :
  map_Forall (fun k v => isArr v = isListKey k) (parseSections text).
Proof.
  intros k v Hv.
  destruct (scanLines_wellTyped (lines text) scan0 scan0_wellTyped) as [Hty _].
  now apply Hty.
Qed.

Lemma push_trimmed st (x : jsstring) :
  map_Forall (fun _ v => trimmedValue v) (sections st) ->
  map_Forall (fun _ v => trimmedValue v) (sections (push st (trim x))).
Proof.
  intros Hst k v. rewrite push_sections.
  destruct (currentKey st) as [k'|]; [|apply Hst].
  destruct (sections st !! k') as [[s|items]|] eqn:Hk'; try apply Hst.
  case_decide; [|apply Hst]. intros [= <-]. simpl.
  apply Forall_app. split; [apply (Hst _ _ Hk')|].
  constructor; [apply trim_idem|constructor].
Qed.

Lemma scanLines_trimmed (ls : list jsstring) : forall st,
  map_Forall (fun _ v => trimmedValue v) (sections st) ->
  map_Forall (fun _ v => trimmedValue v) (sections (scanLines st ls)).
Proof.
  induction ls as [|l ls IH]; intros st Hst; simpl; [done|].
  apply IH.
  destruct (scanLine_shape st l) as [(k' & Hh & ->)|(Hh & [->|(x & ->)])];
    [|done|now apply push_trimmed].
  simpl. apply map_Forall_insert_2; [|done].
  unfold headerValue. destruct (isListKey k'); simpl; [constructor|apply trim_idem].
Qed.

(** Every string of the result is trimmed: the scalar values and the
    items of the lists have no white space at either end. *)
Theorem sections_trimmed (text : jsstring) :
  map_Forall (fun _ v => trimmedValue v) (parseSections text).
Proof. apply scanLines_trimmed. apply map_Forall_empty. Qed.

Lemma itemOf_dashed (rest : jsstring) : itemOf (45 :: rest) = trim rest.
Proof. reflexivity. Qed.

Lemma itemOf_other line :
  ~ dashed line -> itemOf line = trim (dropWhile markerDotClass line).
Proof.
  intros Hd. unfold itemOf. destruct line as [|c line]; [done|].
  destruct (N.eqb_spec c 45) as [->|Hc].
  - destruct Hd. now exists line.
  - destruct c as [|c]; [done|].
    repeat (destruct c as [c|c|]; try done).
Qed.

Lemma scanLine_bullet st line :
  bulletLine line -> openArray st = true ->
  scanLine st line = push st (itemOf line).
Proof.
  intros [Hh Hkind] Hopen.
  destruct line as [|c line].
  { destruct Hkind as [[rest H]|(run & rest & Hne & _ & H)]; [done|].
    now destruct run. }
  destruct (N.eqb_spec c 45) as [->|Hc].
  - rewrite itemOf_dashed. now apply scanLine_dashed.
  - assert (Hd : ~ dashed (c :: line)).
    { intros [rest [= ? _]]. done. }
    rewrite (itemOf_other _ Hd).
    apply scanLine_numbered; try done. now destruct Hkind.
Qed.

Lemma scanLines_bullets (bs : list jsstring) k : forall st items,
  currentKey st = Some k ->
  sections st !! k = Some (Arr items) ->
  Forall bulletLine bs ->
  currentKey (scanLines st bs) = Some k
  /\ sections (scanLines st bs) !! k = Some (Arr (items ++ map itemOf bs)).
Proof.
  induction bs as [|b bs IH]; intros st items Hcur Hk Hbs; simpl.
  - now rewrite app_nil_r.
  - apply Forall_cons in Hbs as [Hb Hbs].
    assert (Hopen : openArray st = true).
    { unfold openArray. now rewrite Hcur, Hk. }
    rewrite (scanLine_bullet _ _ Hb Hopen), (push_open _ _ _ _ Hcur Hk).
    destruct (IH (Scan (<[k := Arr (items ++ [itemOf b])]> (sections st)) (Some k))
                (items ++ [itemOf b])) as [Hcur' Hk']; try done.
    { simpl. apply lookup_insert_eq. }
    split; [done|]. rewrite Hk'. now rewrite <- app_assoc.
Qed.

(** A section that is not the current one stays as it is until a header
    of its kind comes. *)
Lemma closed_section_kept (ls : list jsstring) k : forall st,
  currentKey st <> Some k ->
  Forall (fun l => headerOf l <> Some k) ls ->
  sections (scanLines st ls) !! k = sections st !! k.
Proof.
  induction ls as [|l ls IH]; intros st Hcur Hls; simpl; [done|].
  apply Forall_cons in Hls as [Hl Hls].
  destruct (scanLine_shape st l) as [(k' & Hh & ->)|(Hh & [->|(x & ->)])].
  - rewrite IH; [|simpl; congruence|done]. simpl.
    apply lookup_insert_ne. congruence.
  - now apply IH.
  - rewrite IH; [|now rewrite push_currentKey|done].
    now apply push_elsewhere.
Qed.

(** The items of a list section are the bullet lines between its last
    header and the next header.  For a reply whose lines are [pre], the
    header [h] of the list section [k], the bullet lines [bs], each
    starting with [-] or with marker characters and a [.], and then
    either nothing or a header line followed by anything that holds no
    header of kind [k]: section [k] of the result is the list of the
    items of [bs], in their order. *)
Theorem bullets_collected (text : jsstring) (pre bs post : list jsstring)
    (h : jsstring) (k : key) :
  lines text = pre ++ h :: bs ++ post ->
  headerOf h = Some k ->
  isListKey k = true ->
  Forall bulletLine bs ->
  Forall (fun l => headerOf l <> Some k) post ->
  (forall p ps, post = p :: ps -> headerOf p <> None) ->
  parseSections text !! k = Some (Arr (map itemOf bs)).
Proof.
  intros Hlines Hh Hlist Hbs Hpost Hnext. unfold parseSections.
  rewrite Hlines, scanLines_app. simpl.
  rewrite (scanLine_header _ _ _ Hh), scanLines_app.
  match goal with
  | |- sections (scanLines (scanLines ?st0 bs) post) !! k = _ =>
      destruct (scanLines_bullets bs k st0 []) as [Hcur Hk]; simpl; try done
  end.
  { rewrite lookup_insert_eq. unfold headerValue. now rewrite Hlist. }
  destruct post as [|p ps]; [exact Hk|].
  apply Forall_cons in Hpost as [Hp Hps].
  destruct (headerOf p) as [k'|] eqn:Hhp; [|now destruct (Hnext p ps)].
  simpl. rewrite (scanLine_header _ _ _ Hhp).
  rewrite closed_section_kept; [|simpl; congruence|done].
  simpl. rewrite lookup_insert_ne; [exact Hk|congruence].
Qed.

(** A line in which [see] is followed by [doctor] or [medical] is never
    taken as a Next Steps, Possible Conditions or Disclaimer header, even
    when it carries that header: it leaves those sections as they were
    and makes none of them the current one. *)
Theorem see_doctor_shadows st line k :
  test (matchers SeeADoctorIf) line = true ->
  k = NextSteps \/ k = PossibleConditions \/ k = Disclaimer ->
  headerOf line <> Some k
  /\ sections (scanLine st line) !! k = sections st !! k
  /\ currentKey (scanLine st line) <> Some k.
Proof.
  intros Hsee Hk.
  assert (Hh : exists k', headerOf line = Some k'
                          /\ (k' = Severity \/ k' = ImmediateNeed
                              \/ k' = SeeADoctorIf)).
  { unfold headerOf, keys. cbn [List.find]. rewrite Hsee.
    destruct (test (matchers Severity) line); [eauto|].
    destruct (test (matchers ImmediateNeed) line); eauto. }
  destruct Hh as (k' & Hh & Hk').
  assert (Hne : k' <> k).
  { destruct Hk' as [ -> | [ -> | -> ] ], Hk as [ -> | [ -> | -> ] ];
      discriminate. }
  rewrite (scanLine_header _ _ _ Hh), Hh. simpl.
  split; [congruence|]. split; [now apply lookup_insert_ne|congruence].
Qed.

(** A block with the key [k] that holds what is stored under [k] is
    the one block that lookup allows, or there is none. *)
Ltac block_contents Hmk :=
  let Hkey := fresh "Hkey" in
  let Hb := fresh "Hb" in
  let Hne := fresh "Hne" in
  let Heq := fresh "Heq" in
  intros [Hkey Hb];
  match goal with b : block |- _ => destruct b end;
  simpl in *; subst; rewrite Hmk in Hb; destruct Hb as [Hne Heq];
  try discriminate Heq; injection Heq as Heq; subst; done.

(** What is shown of a reply is, in the fixed order Severity, Immediate
    Need, See a Doctor If, Next Steps, Possible Conditions, Disclaimer
    and whatever the order of the headers in the reply, each section of
    the result that is not empty, with what the result holds for it, and
    nothing else. *)
Theorem reply_blocks (text : jsstring) :
  map blockKey (formatBotReply text) `sublist_of` keys
  /\ (forall b, b ∈ formatBotReply text <-> blockOf (parseSections text) b).
Proof.
  assert (Hty : map_Forall (fun k v => isArr v = isListKey k)
                   (parseSections text)).
  { intros k v Hv.
    destruct (scanLines_wellTyped (lines text) scan0 scan0_wellTyped)
      as [Hty _].
    now apply Hty. }
  unfold formatBotReply. cbv zeta.
  set (m := parseSections text) in *.
  assert (Hpara : forall k, isListKey k = false ->
            (forall b, b ∈ para m k <-> blockKey b = k /\ blockOf m b)
            /\ (para m k = [] \/ exists s, para m k = [Para k s])).
  { intros k Hk. unfold para.
    destruct (m !! k) as [[[|c s]|items]|] eqn:Hmk; simpl.
    - split; [|now left]. intros b. rewrite elem_of_nil. split; [done|].
      block_contents Hmk.
    - split; [|right; eauto]. intros b. rewrite list_elem_of_singleton.
      split; [now intros ->|]. block_contents Hmk.
    - specialize (Hty _ _ Hmk). simpl in Hty. congruence.
    - split; [|now left]. intros b. rewrite elem_of_nil. split; [done|].
      block_contents Hmk. }
  assert (Hbul : forall k, isListKey k = true ->
            (forall b, b ∈ bullets m k <-> blockKey b = k /\ blockOf m b)
            /\ (bullets m k = [] \/ exists items, bullets m k = [Bullets k items])).
  { intros k Hk. unfold bullets.
    destruct (m !! k) as [[s|[|i items]]|] eqn:Hmk; simpl.
    - specialize (Hty _ _ Hmk). simpl in Hty. congruence.
    - split; [|now left]. intros b. rewrite elem_of_nil. split; [done|].
      block_contents Hmk.
    - split; [|right; eauto]. intros b. rewrite list_elem_of_singleton.
      split; [now intros ->|]. block_contents Hmk.
    - split; [|now left]. intros b. rewrite elem_of_nil. split; [done|].
      block_contents Hmk. }
  destruct (Hpara Severity eq_refl) as [H1 S1].
  destruct (Hpara ImmediateNeed eq_refl) as [H2 S2].
  destruct (Hbul SeeADoctorIf eq_refl) as [H3 S3].
  destruct (Hbul NextSteps eq_refl) as [H4 S4].
  destruct (Hbul PossibleConditions eq_refl) as [H5 S5].
  destruct (Hpara Disclaimer eq_refl) as [H6 S6].
  split.
  - destruct S1 as [E1|[x1 E1]], S2 as [E2|[x2 E2]], S3 as [E3|[x3 E3]],
      S4 as [E4|[x4 E4]], S5 as [E5|[x5 E5]], S6 as [E6|[x6 E6]];
      rewrite E1, E2, E3, E4, E5, E6; simpl; unfold keys;
      repeat first [apply sublist_nil_l | apply sublist_skip | apply sublist_cons].
  - intros b. rewrite !elem_of_app, H1, H2, H3, H4, H5, H6.
    split; [tauto|]. intros Hb. destruct (blockKey b); tauto.
Qed.

End ResultFacts.

Lemma bullets_collected_witness :
  parseSections
    (js "Next Steps:" ++ 10 :: js "- rest" ++ 10 :: js "2. drink water"
     ++ 10 :: js "Disclaimer: not a diagnosis" ++ 10 :: js "- ignored")
  !! NextSteps
  = Some (Arr (map itemOf [js "- rest"; js "2. drink water"])).
Proof.
  apply (bullets_collected _ [] [js "- rest"; js "2. drink water"]
           [js "Disclaimer: not a diagnosis"; js "- ignored"]
           (js "Next Steps:") NextSteps).
  - vm_compute. reflexivity.
  - vm_compute. reflexivity.
  - reflexivity.
  - constructor; [|constructor; [|constructor]].
    + split; [vm_compute; reflexivity|]. left. now exists (js " rest").
    + split; [vm_compute; reflexivity|].
      right. exists (js "2"), (js " drink water").
      split; [discriminate|]. split; [|reflexivity].
      constructor; [reflexivity|constructor].
  - constructor; [|constructor; [|constructor]]; vm_compute; discriminate.
  - intros p ps [= <- _]. vm_compute. discriminate.
Defined.

Lemma see_doctor_shadows_witness :
  headerOf (js "Disclaimer: please see a doctor") <> Some Disclaimer
  /\ sections (scanLine scan0 (js "Disclaimer: please see a doctor")) !! Disclaimer
     = sections scan0 !! Disclaimer
  /\ currentKey (scanLine scan0 (js "Disclaimer: please see a doctor"))
     <> Some Disclaimer.
Proof.
  apply (see_doctor_shadows scan0 (js "Disclaimer: please see a doctor")
           Disclaimer).
  - vm_compute. reflexivity.
  - right. right. reflexivity.
Defined.

(** ** Header lines: what the scalar sections keep *)

Section HeaderFacts.

Local Open Scope nat_scope.

Implicit Types (k : key) (s t rest : jsstring).




Lemma colon_stops_run s : stopsRun ws (58%N :: s).
Proof. reflexivity. Qed.









End HeaderFacts.



(** C6, as stated, fails.  Under the open list See a Doctor If, the line
    [Please seek medical care quickly], which is no bullet line, is taken
    as a See a Doctor If header: the list gathered so far is emptied. *)
Lemma plain_line_taken_as_header :
  parseSections (js "See a Doctor If:" ++ 10 :: js "- fever lasts")
  = {[SeeADoctorIf := Arr [js "fever lasts"]]}
  /\ parseSections
       (js "See a Doctor If:" ++ 10 :: js "- fever lasts"
        ++ 10 :: js "Please seek medical care quickly")
     = {[SeeADoctorIf := Arr []]}.
Proof. split; vm_compute; reflexivity. Qed.

(** C10, as stated, fails.  After [Severity: High], the bullet line
    [- severity: unknown], scanned while Severity is the current section,
    is taken as a Severity header and overwrites the value. *)
Lemma bullet_line_overwrites_scalar :
  parseSections (js "Severity: High") !! Severity = Some (Str (js "High"))
  /\ parseSections (js "Severity: High" ++ 10 :: js "- severity: unknown")
     !! Severity
     = Some (Str (js "-  unknown")).
Proof. split; vm_compute; reflexivity. Qed.
